(** * Euclid sequencer: pattern generator, cycle aligner and step scheduler

    A shallow embedding of [src/utils/euclidAlgorithm.ts] and of the
    scheduling core of [src/hooks/useAudio.ts], with the properties the
    specification states about them.

    Conventions of the embedding.
    - JavaScript integers are [Z]; the embedding keeps them exact (the
      source stays far below 2^53 on its documented ranges).
    - JavaScript reals ([bias], [bpm], [swing], times, volumes) are exact
      rationals [Q]; [Math.round x] is [Qfloor (x + 1/2)].
    - A [number[]] is a [list Z]; reading a slot outside the array yields
      [None], which plays the role of [undefined].
    - [%] is the truncating remainder [Z.rem]; a zero divisor gives NaN,
      written [None].
    - Strings are byte strings; the white space [parseInt] skips is the
      ASCII part of the ECMAScript white space. *)

From Stdlib Require Import ZArith QArith Qround Qminmax Qabs Lia Lqa String Ascii.
From Stdlib Require Import Sorted.
From stdpp Require Import base list gmap strings.
From Equations Require Import Equations.

Local Open Scope Z_scope.

(** ** Array primitives shared by both modules *)

(** [for (let i = 0; i < n; i++)]: the indices visited, in order. *)
Definition indices (n : nat) : list nat := seq 0 n.

(** [arr[i] === v] for a numeric array: false outside the array. *)
Definition slot_is (arr : list Z) (i : nat) (v : Z) : bool :=
  match arr !! i with
  | Some x => x =? v
  | None => false
  end.

(** [arr.sort(cmp)]: the comparator returns a negative number when its
    first argument goes first.  Every comparator of the source ends in a
    comparison of distinct indices, hence is a strict total order on the
    elements sorted, and the sorted array is unique: a stable insertion
    sort computes it. *)
Fixpoint sort_insert {A} (cmp : A → A → Z) (x : A) (l : list A) : list A :=
  match l with
  | [] => [x]
  | y :: l' => if cmp y x <=? 0 then y :: sort_insert cmp x l' else x :: y :: l'
  end.

Definition js_sort {A} (cmp : A → A → Z) (l : list A) : list A :=
  foldl (λ acc x, sort_insert cmp x acc) [] l.

(** ** The pattern generator, [euclidAlgorithm.ts] *)

Module Euclid.

Record EuclidParams := mkParams {
  steps : Z;
  hits : Z;
  bias : Q;
  rotation : Z
}.

(** [Math.round] on an exact rational. *)
Definition js_round (x : Q) : Z := Qfloor (x + (1 # 2))%Q.

(** Step 1 of [generateEuclidPattern]: the loop filling [result]. *)
Definition basePattern (steps hits : Z) : list Z :=
  map (λ i : nat, if Z.rem (Z.of_nat i * hits) steps <? hits then 1 else 0)
      (indices (Z.to_nat steps)).

(** [rotate]: the write loop [out[(i + shift) % n] = arr[i]] over a fresh
    array; [hole] stands for the slots of [new Array(n)] before they are
    written. *)
Definition rotate_fill (hole : Z) (arr : list Z) (shift : Z) : list Z :=
  let n := length arr in
  foldl (λ out i,
           match arr !! i with
           | Some v => <[Z.to_nat (Z.rem (Z.of_nat i + shift) (Z.of_nat n)) := v]> out
           | None => out
           end)
        (replicate n hole) (indices n).

Definition rotate (arr : list Z) (amount : Z) : list Z :=
  let n := Z.of_nat (length arr) in
  if n <=? 0 then arr
  else
    let shift := Z.rem amount n in
    let shift := if shift <? 0 then shift + n else shift in
    if shift =? 0 then arr else rotate_fill 0 arr shift.

(** [countHits] *)
Definition countHits (arr : list Z) (start len : nat) : Z :=
  foldl (λ hits i, if slot_is arr (start + i) 1 then hits + 1 else hits)
        0 (indices len).

(** [distanceToNearestHit]; the running minimum starts at [Infinity],
    written [None]. *)
Definition distanceToNearestHit
    (arr : list Z) (index start len : nat) (excludeSelf : bool) : Z :=
  let min :=
    foldl (λ (min : option Z) i,
             let idx := (start + i)%nat in
             if slot_is arr idx 1 then
               if excludeSelf && (idx =? index)%nat then min
               else
                 let dist := Z.abs (Z.of_nat idx - Z.of_nat index) in
                 match min with
                 | None => Some dist
                 | Some m => if dist <? m then Some dist else min
                 end
             else min)
          None (indices len) in
  match min with
  | None => Z.of_nat len
  | Some m => m
  end.

(** The records [{ idx, score }] that are sorted. *)
Record Ranked := mkRanked { idx : nat; score : Z }.

Definition rankedHits (arr : list Z) (start len : nat) : list nat :=
  let hits :=
    foldl (λ hits i,
             let idx := (start + i)%nat in
             if slot_is arr idx 1
             then hits ++ [mkRanked idx (distanceToNearestHit arr idx start len true)]
             else hits)
          [] (indices len) in
  map idx
      (js_sort (λ a b, if negb (score a =? score b) then score a - score b
                       else Z.of_nat (idx a) - Z.of_nat (idx b))
               hits).

Definition rankedEmpties (arr : list Z) (start len : nat) : list nat :=
  let empties :=
    foldl (λ empties i,
             let idx := (start + i)%nat in
             if slot_is arr idx 0
             then empties ++ [mkRanked idx (distanceToNearestHit arr idx start len false)]
             else empties)
          [] (indices len) in
  map idx
      (js_sort (λ a b, if negb (score a =? score b) then score b - score a
                       else Z.of_nat (idx a) - Z.of_nat (idx b))
               empties).

(** The move loop of [applyHalfBias01]: at most [moves] iterations, left
    early ([break]) when a side has nothing to give or to take. *)
Fixpoint moveLoop (moves : nat) (out : list Z)
    (sourceStart sourceLen destStart destLen : nat) : list Z :=
  match moves with
  | O => out
  | S moves' =>
      match rankedHits out sourceStart sourceLen,
            rankedEmpties out destStart destLen with
      | sourceIndex :: _, destIndex :: _ =>
          moveLoop moves' (<[destIndex := 1]> (<[sourceIndex := 0]> out))
                   sourceStart sourceLen destStart destLen
      | _, _ => out
      end
  end.

(** [applyHalfBias01] from the target number of hits in the front half. *)
Definition applyHalfBiasTarget (arr : list Z) (targetFront : Z) : list Z :=
  let n := length arr in
  let half := (n / 2)%nat in
  let out := arr in
  let frontHits := countHits out 0 half in
  if frontHits =? targetFront then out
  else
    let toBack := targetFront <? frontHits in
    let sourceStart := if toBack then 0%nat else half in
    let sourceLen := if toBack then half else (n - half)%nat in
    let destStart := if toBack then half else 0%nat in
    let destLen := if toBack then (n - half)%nat else half in
    let moves := Z.abs (frontHits - targetFront) in
    moveLoop (Z.to_nat moves) out sourceStart sourceLen destStart destLen.

(** [Math.round(hits * frontRatio)], computed on exact rationals.  The
    source rounds the double product, which can differ by one from this
    value (bias 0.1 with 5 hits gives 5 there and 4 here); statements
    about the target are therefore made for [applyHalfBiasTarget] and
    every target. *)
Definition targetFront (arr : list Z) (bias01 : Q) : Z :=
  let hits := countHits arr 0 (length arr) in
  let frontRatio := (1 - bias01)%Q in
  js_round (inject_Z hits * frontRatio)%Q.

Definition applyHalfBias01 (arr : list Z) (bias01 : Q) : list Z :=
  applyHalfBiasTarget arr (targetFront arr bias01).

(** [result.map(v => v === 1)] *)
Definition toPattern (result : list Z) : list bool := map (λ v, v =? 1) result.

Definition generateEuclidPattern (params : EuclidParams) : list bool :=
  let '(mkParams steps hits bias rotation) := params in
  if (steps <=? 0) || (hits <? 0) || (steps <? hits) then
    replicate (Z.to_nat (Z.max 0 steps)) false
  else
    let result := basePattern steps hits in
    let result := if Qeq_bool bias (1 # 2) then result
                  else applyHalfBias01 result bias in
    let result := if rotation =? 0 then result else rotate result rotation in
    toPattern result.

(** Indices of the [true] entries of a pattern, and their number. *)
Definition hitIndices (p : list bool) : list nat :=
  filter (λ i, p !! i = Some true) (indices (length p)).

Definition popcount (p : list bool) : Z :=
  Z.of_nat (length (filter (λ b, b = true) p)).

(** The number of slots of a numeric array holding [1], by recursion on
    the array; [countHits] over the whole array computes it. *)
Fixpoint ones (arr : list Z) : Z :=
  match arr with
  | [] => 0
  | x :: arr' => (if x =? 1 then 1 else 0) + ones arr'
  end.

(** The hits of a range that [distanceToNearestHit] looks at: those of
    [start .. start+k-1], without [index] itself when [excludeSelf]. *)
Definition counted (arr : list Z) (index start k : nat) (excludeSelf : bool)
    (j : nat) : Prop :=
  (start ≤ j < start + k)%nat ∧ arr !! j = Some 1
  ∧ (excludeSelf = true → j ≠ index).

End Euclid.

(** ** The superseded redistribution: centre placement

    The earlier [applyHalfBias01] of the same file rebuilds the array from
    scratch, placing hits from the centre of each half outwards. *)

Module Legacy.

Record Centered := mkCentered { idx : nat; d : Q }.

(** [centerOrder]: the indices [start .. start+len-1] by distance from the
    centre of the range, ties by index. *)
Definition centerOrder (start len : nat) : list nat :=
  let center := (inject_Z (Z.of_nat start)
                 + (inject_Z (Z.of_nat len) - 1) / 2)%Q in
  let tmp :=
    foldl (λ tmp i,
             let idx := (start + i)%nat in
             tmp ++ [mkCentered idx (Qabs (inject_Z (Z.of_nat idx) - center))])
          [] (indices len) in
  map idx
      (js_sort (λ a b, match (d a ?= d b)%Q with
                       | Lt => -1
                       | Gt => 1
                       | Eq => Z.of_nat (idx a) - Z.of_nat (idx b)
                       end)
               tmp).

(** [for (a = 0; a < order.length && placed < limit; a++)
       { out[order[a]] = 1; placed++; }] *)
Fixpoint placeLoop (order : list nat) (limit : Z) (out : list Z) (placed : Z)
    : list Z * Z :=
  match order with
  | [] => (out, placed)
  | i :: order' =>
      if placed <? limit
      then placeLoop order' limit (<[i := 1]> out) (placed + 1)
      else (out, placed)
  end.

(** The fallback loop over all indices, filling slots still at [0]. *)
Fixpoint fallbackLoop (ixs : list nat) (hits : Z) (out : list Z) (placed : Z)
    : list Z * Z :=
  match ixs with
  | [] => (out, placed)
  | i :: ixs' =>
      if placed <? hits
      then if slot_is out i 0
           then fallbackLoop ixs' hits (<[i := 1]> out) (placed + 1)
           else fallbackLoop ixs' hits out placed
      else (out, placed)
  end.

Definition applyHalfBiasTarget (arr : list Z) (hits targetFront : Z) : list Z :=
  let n := length arr in
  let half := (n / 2)%nat in
  let frontOrder := centerOrder 0 half in
  let backOrder := centerOrder half (n - half) in
  let out := replicate n 0 in
  let placed := 0 in
  let '(out, placed) := placeLoop frontOrder targetFront out placed in
  let '(out, placed) := placeLoop backOrder hits out placed in
  let '(out, placed) :=
    if placed <? hits then fallbackLoop (indices n) hits out placed
    else (out, placed) in
  out.

Definition applyHalfBias01 (arr : list Z) (bias01 : Q) : list Z :=
  let hits :=
    foldl (λ hits i, if slot_is arr i 1 then hits + 1 else hits)
          0 (indices (length arr)) in
  let frontRatio := (1 - bias01)%Q in
  let targetFront := Euclid.js_round (inject_Z hits * frontRatio)%Q in
  applyHalfBiasTarget arr hits targetFront.

(** Arrays holding only zeros and ones, the invariant of the rebuild. *)
Definition all01 (l : list Z) : Prop := Forall (λ x, x = 0 ∨ x = 1) l.

End Legacy.

(** ** Cycle alignment and the step scheduler, [useAudio.ts] *)

Module Audio.

(** The fields of [Track] and [TransportState] the hook reads. *)
Record Track := mkTrack {
  id : string;
  steps : Z;
  volume : Q;
  muted : bool;
  solo : bool;
  pattern : list bool
}.

Record TransportState := mkTransport {
  bpm : Q;
  swing : Q;
  timeSignature : string
}.

(** *** Cycle length *)

(** The [while (y !== 0)] loop of [gcd]. *)
Equations? gcd_loop (x y : Z) : Z by wf (Z.abs_nat y) lt :=
  gcd_loop x y with Z.eq_dec y 0 := {
    | left _ => x
    | right Hy => gcd_loop y (Z.rem x y) }.
Proof. pose proof (Z.rem_bound_abs x y Hy). lia. Qed.

Definition gcd (a b : Z) : Z :=
  let x := gcd_loop (Z.abs a) (Z.abs b) in
  if x =? 0 then 1 else x.

Definition lcm (a b : Z) : Z := Z.abs (a * b) / gcd a b.

(** [parseInt(s, 10)]: leading white space, an optional sign, then the
    longest run of decimal digits; [None] is NaN.  A missing piece of the
    split ([undefined]) parses to NaN. *)
Definition isWhiteSpace (c : ascii) : bool :=
  let n := nat_of_ascii c in
  ((9 <=? n) && (n <=? 13) || (n =? 32))%nat.

Definition digitValue (c : ascii) : option Z :=
  let n := Z.of_nat (nat_of_ascii c) in
  if (48 <=? n) && (n <=? 57) then Some (n - 48) else None.

Fixpoint skipWhiteSpace (s : string) : string :=
  match s with
  | String c s' => if isWhiteSpace c then skipWhiteSpace s' else s
  | EmptyString => s
  end.

Fixpoint parseDigits (s : string) (acc : option Z) : option Z :=
  match s with
  | String c s' =>
      match digitValue c with
      | Some v => parseDigits s' (Some (10 * default 0 acc + v))
      | None => acc
      end
  | EmptyString => acc
  end.

Definition parseInt (s : option string) : option Z :=
  match s with
  | None => None
  | Some s =>
      match skipWhiteSpace s with
      | String "-" s' => Z.opp <$> parseDigits s' None
      | String "+" s' => parseDigits s' None
      | s' => parseDigits s' None
      end
  end.

(** [s.split('/')] *)
Fixpoint splitSlash (s : string) (piece : string) : list string :=
  match s with
  | String c s' =>
      if Ascii.eqb c "/" then piece :: splitSlash s' EmptyString
      else splitSlash s' (piece ++ String c EmptyString)
  | EmptyString => [piece]
  end.

Definition parseTimeSignature (timeSignature : string) : option (Z * Z) :=
  let parts := splitSlash timeSignature EmptyString in
  let numerator := parseInt (parts !! 0%nat) in
  let denominator := parseInt (parts !! 1%nat) in
  match numerator, denominator with
  | Some n, Some d => if d =? 0 then None else Some (n, d)
  | _, _ => None
  end.

Definition timeSignatureToSteps (timeSignature : string) : Z :=
  match parseTimeSignature timeSignature with
  | None => 16
  | Some (numerator, denominator) =>
      let stepsPerBeat := Z.max 1 (16 / denominator) in
      Z.max 1 (numerator * stepsPerBeat)
  end.

Definition calculateCycleLength (tracks : list Track) (timeSignature : string)
    : Z :=
  let trackSteps := List.filter (λ steps, 0 <? steps) (map steps tracks) in
  let signatureSteps := timeSignatureToSteps timeSignature in
  let lengths :=
    List.filter (λ v, negb (v =? 0)) (trackSteps ++ [signatureSteps]) in
  match lengths with
  | [] => 16
  | first :: rest => foldl lcm first rest
  end.

(** *** The scheduler *)

(** The mutable refs of the hook that the scheduling functions touch. *)
Record Refs := mkRefs {
  currentStepRef : Z;
  nextTimeRef : Q;
  cycleLengthRef : Z
}.

(** The interval [nextStep] adds to [nextTimeRef]. *)
Definition stepInterval (transport : TransportState) (currentStep : Z) : Q :=
  let bpm := Qmax 40 (Qmin 300 (bpm transport)) in
  let swing := Qmax 0 (Qmin (3 # 10) (swing transport / 100 * (3 # 10))) in
  let base := (60 / bpm / 4)%Q in
  let even := Z.rem currentStep 2 =? 0 in
  (base * (if even then 1 + swing else 1 - swing))%Q.

Definition nextStep (transport : TransportState) (refs : Refs) : Refs :=
  let interval := stepInterval transport (currentStepRef refs) in
  let nextTime := (nextTimeRef refs + interval)%Q in
  let cycle := Z.max 1 (cycleLengthRef refs) in
  mkRefs (Z.rem (currentStepRef refs + 1) cycle) nextTime (cycleLengthRef refs).

(** A call [DrumMachine.trigger(trackId, volume, time)]. *)
Record Trigger := mkTrigger {
  trackId : string;
  velocity : Q;
  time : Q
}.

(** [step % track.steps]; NaN for a zero divisor. *)
Definition js_rem (a b : Z) : option Z :=
  if b =? 0 then None else Some (Z.rem a b).

(** [pattern[i]] read as a condition: [undefined] is falsy. *)
Definition patternAt (pattern : list bool) (i : option Z) : bool :=
  match i with
  | Some i => if i <? 0 then false else default false (pattern !! Z.to_nat i)
  | None => false
  end.

(** [triggerDrumSound]: forwarded only when the drum machine exists. *)
Definition triggerDrumSound (ready : bool) (sink : list Trigger)
    (trackId : string) (volume t : Q) : list Trigger :=
  if ready then sink ++ [mkTrigger trackId volume t] else sink.

(** The condition [shouldPlay] computed for each track in [schedule]. *)
Definition shouldPlay (hasSolo : bool) (step : Z) (track : Track) : bool :=
  let stepInPattern := js_rem step (steps track) in
  negb (muted track)
  && patternAt (pattern track) stepInPattern
  && (negb hasSolo || solo track).

(** [schedule(step, time)] at clock reading [now]: the calls appended to
    the sink, in order. *)
Definition schedule (ready : bool) (tracks : list Track)
    (step : Z) (time now : Q) : list Trigger :=
  let t := Qmax time (now + (1 # 1000)) in
  let hasSolo := existsb solo tracks in
  foldl (λ sink track,
           if shouldPlay hasSolo step track
           then triggerDrumSound ready sink (id track) (volume track / 100)%Q t
           else sink)
        [] tracks.

(** *** The specification's vocabulary *)

(** [r] is the least common multiple of the numbers [xs]: the smallest
    positive number all of them divide. *)
Definition is_lcm_of (xs : list Z) (r : Z) : Prop :=
  0 < r
  ∧ Forall (λ x, (x | r)) xs
  ∧ ∀ m, 0 < m → Forall (λ x, (x | m)) xs → r ≤ m.

(** Implied steps of a parsed signature [N/D], in the specification's
    words. *)
Definition impliedSteps (N D : Z) : Z := Z.max 1 (N * Z.max 1 (16 / D)).

(** [clamp(x, lo, hi)] *)
Definition clamp (x lo hi : Q) : Q := Qmax lo (Qmin hi x).

(** The step interval in the specification's words, as a function of the
    step index whose parity selects the long or the short interval. *)
Definition specInterval (bpm swing : Q) (index : Z) : Q :=
  let base := (60 / bpm / 4)%Q in
  let swingRatio := (clamp (swing / 100) 0 1 * (3 # 10))%Q in
  if Z.even index then (base * (1 + swingRatio))%Q
  else (base * (1 - swingRatio))%Q.

(** A track with the given number of steps, for the examples. *)
Definition trackOfSteps (n : Z) : Track := mkTrack "kick" n 80 false false [].

End Audio.

(** ** The rest of the hook: cycle re-alignment, transport, lookahead loop *)

Module Transport.
Import Audio.

(** [lookahead] and [ahead], in seconds. *)
Definition lookahead : Q := 25 # 1000.
Definition ahead : Q := 1 # 10.

(** The refs as [useRef] creates them. *)
Definition initialRefs : Refs := mkRefs 0 0 16.

(** The effect run when [cycleLength] changes. *)
Definition alignCycle (cycleLength : Z) (refs : Refs) : Refs :=
  let nextCycle := Z.max 1 cycleLength in
  mkRefs (Z.rem (currentStepRef refs) nextCycle) (nextTimeRef refs) nextCycle.

(** What [startAudio] does to the refs once [Tone.start()] has resolved,
    before it enters the loop; [now] is the clock reading. *)
Definition startRefs (now : Q) (refs : Refs) : Refs :=
  mkRefs (Z.rem (currentStepRef refs) (Z.max 1 (cycleLengthRef refs)))
         now (cycleLengthRef refs).

(** What [stopAudio] does to the refs. *)
Definition stopRefs (refs : Refs) : Refs :=
  mkRefs 0 (nextTimeRef refs) (cycleLengthRef refs).

(** One write to the refs by the hook. *)
Inductive RefsStep : Refs → Refs → Prop :=
  | step_align cycleLength refs : RefsStep refs (alignCycle cycleLength refs)
  | step_start now refs : RefsStep refs (startRefs now refs)
  | step_stop refs : RefsStep refs (stopRefs refs)
  | step_next transport refs : RefsStep refs (nextStep transport refs).

Inductive Reachable : Refs → Prop :=
  | reach_init : Reachable initialRefs
  | reach_step refs refs' : Reachable refs → RefsStep refs refs' → Reachable refs'.

(** The [while] loop of [loop].  [clock k] is the [k]-th reading of
    [Tone.now()] and [reads] counts the readings made so far: the loop
    test reads the clock once and [schedule] once more.  The result holds
    the refs, the calls sent to the sink and the number of readings;
    [None] means the fuel ran out before the loop test failed. *)
Fixpoint catchUp (fuel : nat) (ready : bool) (tracks : list Track)
    (transport : TransportState) (clock : nat → Q) (reads : nat)
    (refs : Refs) (sink : list Trigger) : option (Refs * list Trigger * nat) :=
  match fuel with
  | O => None
  | S fuel' =>
      if Qlt_le_dec (nextTimeRef refs) (clock reads + ahead) then
        let calls := schedule ready tracks (currentStepRef refs)
                              (nextTimeRef refs) (clock (S reads)) in
        catchUp fuel' ready tracks transport clock (S (S reads))
                (nextStep transport refs) (sink ++ calls)
      else Some (refs, sink, S reads)
  end.

(** Fuel that suffices when no clock reading exceeds [horizon]: every
    interval is at least 35 ms. *)
Definition fuelFor (horizon : Q) (refs : Refs) : nat :=
  S (Z.to_nat (Qceiling ((horizon + ahead - nextTimeRef refs) * (200 # 7)))).

End Transport.

(** ** The drum machine, [drumSounds.ts]

    The Tone.js nodes are kept as what the class does to them: the calls
    made on a gain parameter and on a synth are the events returned. *)

Module DrumSounds.

Inductive Synth := PolySynth | NoiseSynth.

Inductive AudioEvent :=
  | CancelScheduledValues (drum : string) (t : Q)
  | SetValueAtTime (drum : string) (value t : Q)
  | TriggerAttackRelease (drum : string) (note : option string)
                         (duration : string) (t : Q).

Record DrumMachine := mkMachine {
  players : gmap string Synth;
  gains : gmap string Q;
  baseGains : gmap string Q;
  lastTriggerTimes : gmap string Q;
  masterGain : Q
}.

(** The constructor with [initializeSynths]. *)
Definition newDrumMachine : DrumMachine :=
  let levels : list (string * (Synth * Q)) :=
    [("kick", (PolySynth, 9 # 10)); ("snare", (NoiseSynth, 8 # 10));
     ("hihat", (NoiseSynth, 5 # 10)); ("crash", (NoiseSynth, 2 # 10));
     ("perc", (PolySynth, 7 # 10)); ("clap", (NoiseSynth, 6 # 10))]%string in
  mkMachine (list_to_map (map (λ e, (e.1, e.2.1)) levels))
            (list_to_map (map (λ e, (e.1, e.2.2)) levels))
            (list_to_map (map (λ e, (e.1, e.2.2)) levels))
            ∅ (8 # 10).

(** [now <= lastTime], with [-Infinity] for a drum never triggered. *)
Definition notAfter (now : Q) (lastTime : option Q) : bool :=
  match lastTime with
  | Some l => if Qlt_le_dec l now then false else true
  | None => false
  end.

(** The [switch] of [trigger]: the attacks sent to the synth and the
    time recorded in [lastTriggerTimes]. *)
Definition attacks (drumType : string) (now : Q) (lastTime : option Q)
    : list AudioEvent * option Q :=
  if String.eqb drumType "kick" then
    ([TriggerAttackRelease drumType (Some "C1"%string) "8n" now], Some now)
  else if String.eqb drumType "snare" then
    ([TriggerAttackRelease drumType None "8n" now], Some now)
  else if String.eqb drumType "hihat" then
    ([TriggerAttackRelease drumType None "16n" now], Some now)
  else if String.eqb drumType "crash" then
    ([TriggerAttackRelease drumType None "2n" now], Some now)
  else if String.eqb drumType "perc" then
    ([TriggerAttackRelease drumType (Some "G3"%string) "8n" now], Some now)
  else if String.eqb drumType "clap" then
    let first := now in
    let second :=
      match lastTime with
      | Some l => Qmax (first + (1 # 100)) (l + (1 # 10000))
      | None => (first + (1 # 100))%Q
      end in
    let third := Qmax (second + (1 # 100)) (second + (1 # 10000)) in
    ([TriggerAttackRelease drumType None "32n" first;
      TriggerAttackRelease drumType None "32n" second;
      TriggerAttackRelease drumType None "32n" third], Some third)
  else ([], None).

(** [if (now <= lastTime) now = lastTime + 0.0001]: the time [trigger]
    uses is the requested one, pushed just past the last trigger of the
    drum when it is not later. *)
Definition adjusted (now : Q) (lastTime : option Q) : Q :=
  match lastTime with
  | Some l => if notAfter now lastTime then (l + (1 # 10000))%Q else now
  | None => now
  end.

(** [trigger(drumType, volume, time)]; [clockNow] is [Tone.now()], read
    when [time] is omitted.  A Tone.js gain parameter has
    [cancelScheduledValues], so the [typeof] guard around that call
    holds. *)
Definition trigger (m : DrumMachine) (drumType : string) (volume : Q)
    (time : option Q) (clockNow : Q) : DrumMachine * list AudioEvent :=
  let now := default clockNow time in
  match players m !! drumType, gains m !! drumType with
  | Some player, Some gain =>
      let lastTime := lastTriggerTimes m !! drumType in
      let now := adjusted now lastTime in
      let clampedVolume := Qmin (Qmax volume 0) 1 in
      let baseGain := default gain (baseGains m !! drumType) in
      let '(hits, recorded) := attacks drumType now lastTime in
      let last' := match recorded with
                   | Some t => <[drumType := t]> (lastTriggerTimes m)
                   | None => lastTriggerTimes m
                   end in
      (mkMachine (players m) (gains m) (baseGains m) last' (masterGain m),
       [CancelScheduledValues drumType now;
        SetValueAtTime drumType (baseGain * clampedVolume) now]
       ++ hits
       ++ [SetValueAtTime drumType baseGain (now + (1 # 10))])
  | _, _ => (m, [])
  end.

Definition setMasterVolume (m : DrumMachine) (volume : Q) : DrumMachine :=
  let clamped := Qmin (Qmax volume 0) 1 in
  mkMachine (players m) (gains m) (baseGains m) (lastTriggerTimes m) clamped.

Definition dispose (m : DrumMachine) : DrumMachine :=
  mkMachine ∅ ∅ ∅ ∅ (masterGain m).

(** A call of [trigger] with its arguments and the clock reading. *)
Record Call := mkCall {
  callDrum : string;
  callVolume : Q;
  callTime : option Q;
  callClock : Q
}.

(** A sequence of calls on one machine: the final machine and all events
    in order. *)
Definition triggerAll (m : DrumMachine) (calls : list Call)
    : DrumMachine * list AudioEvent :=
  foldl (λ acc c,
           let '(m', evs) :=
             trigger acc.1 (callDrum c) (callVolume c) (callTime c)
                     (callClock c) in
           (m', acc.2 ++ evs))
        (m, []) calls.

(** The attack times of one drum among some events, in order. *)
Definition attackTimes (drum : string) (evs : list AudioEvent) : list Q :=
  omap (λ e, match e with
             | TriggerAttackRelease d _ _ t =>
                 if String.eqb d drum then Some t else None
             | _ => None
             end) evs.

(** The times of all events. *)
Definition eventTime (e : AudioEvent) : Q :=
  match e with
  | CancelScheduledValues _ t => t
  | SetValueAtTime _ _ t => t
  | TriggerAttackRelease _ _ _ t => t
  end.

(** The invariant behind the ordering of attacks: the attacks of a drum
    sent so far are in strictly increasing order and none is later than
    the drum's recorded last trigger time. *)
Definition ordered (m : DrumMachine) (evs : list AudioEvent) : Prop :=
  ∀ d, StronglySorted Qlt (attackTimes d evs)
       ∧ Forall (λ t, ∃ l, lastTriggerTimes m !! d = Some l ∧ (t <= l)%Q)
                (attackTimes d evs).

End DrumSounds.

(** * Properties of the pattern generator *)

Module EuclidFacts.
Import Euclid.

(** ** Counting hits *)

Lemma foldl_count {A} (P : A → bool) (l : list A) (a : Z) :
  foldl (λ h i, if P i then h + 1 else h) a l
  = a + Z.of_nat (length (List.filter P l)).
Proof.
  revert a; induction l as [|x l IH]; intros a; simpl; [lia|].
  rewrite IH. destruct (P x); simpl; lia.
Qed.

Lemma count_slots (pre arr : list Z) :
  Z.of_nat (length (List.filter (λ i, slot_is (pre ++ arr) i 1)
                                (seq (length pre) (length arr))))
  = ones arr.
Proof.
  revert pre; induction arr as [|x arr IH]; intros pre; [done|].
  cbn [length seq List.filter ones].
  specialize (IH (pre ++ [x])).
  rewrite <- app_assoc, length_app in IH. cbn [app length] in IH.
  rewrite Nat.add_1_r in IH.
  assert (E : slot_is (pre ++ x :: arr) (length pre) 1 = (x =? 1)).
  { unfold slot_is. by rewrite list_lookup_middle. }
  rewrite E. destruct (x =? 1); cbn [length]; lia.
Qed.

Lemma countHits_ones (arr : list Z) :
  countHits arr 0 (length arr) = ones arr.
Proof.
  unfold countHits, indices. rewrite foldl_count.
  rewrite <- (count_slots [] arr). reflexivity.
Qed.

Lemma ones_nonneg (arr : list Z) : 0 ≤ ones arr.
Proof. induction arr as [|x arr IH]; simpl; [lia|]. destruct (x =? 1); lia. Qed.

Lemma ones_le_length (arr : list Z) : ones arr ≤ Z.of_nat (length arr).
Proof.
  induction arr as [|x arr IH]; simpl length; simpl ones; [lia|].
  destruct (x =? 1); lia.
Qed.

Lemma ones_app (l1 l2 : list Z) : ones (l1 ++ l2) = ones l1 + ones l2.
Proof. induction l1 as [|x l1 IH]; simpl; [done|]. rewrite IH. lia. Qed.

Lemma ones_insert (arr : list Z) (i : nat) (old v : Z) :
  arr !! i = Some old →
  ones (<[i := v]> arr)
  = ones arr - (if old =? 1 then 1 else 0) + (if v =? 1 then 1 else 0).
Proof.
  revert i; induction arr as [|x arr IH]; intros [|i] H; simpl in *; try done.
  - injection H as ->. lia.
  - rewrite (IH i H). lia.
Qed.

Lemma ones_Permutation (l1 l2 : list Z) : l1 ≡ₚ l2 → ones l1 = ones l2.
Proof. induction 1; simpl; lia. Qed.

Lemma popcount_ones (arr : list Z) : popcount (toPattern arr) = ones arr.
Proof.
  unfold popcount, toPattern. induction arr as [|x arr IH]; [done|].
  cbn [map ones]. rewrite filter_cons. destruct (x =? 1) eqn:E.
  - rewrite decide_True by done. simpl length. lia.
  - rewrite decide_False by done. lia.
Qed.

(** ** Sorting only permutes *)

Lemma sort_insert_perm {A} (cmp : A → A → Z) (x : A) (l : list A) :
  sort_insert cmp x l ≡ₚ x :: l.
Proof.
  induction l as [|y l IH]; simpl; [done|].
  destruct (cmp y x <=? 0); [|done].
  rewrite IH. apply Permutation_swap.
Qed.

Lemma js_sort_perm {A} (cmp : A → A → Z) (l : list A) : js_sort cmp l ≡ₚ l.
Proof.
  unfold js_sort.
  enough (G : ∀ acc, foldl (λ acc x, sort_insert cmp x acc) acc l ≡ₚ acc ++ l)
    by apply (G []).
  induction l as [|x l IH]; intros acc; simpl.
  - by rewrite app_nil_r.
  - rewrite IH, sort_insert_perm. apply Permutation_middle.
Qed.

Lemma foldl_collect {A B} (P : A → bool) (f : A → B) (l : list A) (acc : list B) :
  foldl (λ acc i, if P i then acc ++ [f i] else acc) acc l
  = acc ++ map f (List.filter P l).
Proof.
  revert acc; induction l as [|x l IH]; intros acc; simpl.
  - by rewrite app_nil_r.
  - rewrite IH. destruct (P x); simpl; [|done]. by rewrite <- app_assoc.
Qed.

(** Every index ranked by [rankedHits] holds a hit, every index ranked by
    [rankedEmpties] holds [0]. *)
Lemma rankedHits_slot (arr : list Z) (start len i : nat) :
  i ∈ rankedHits arr start len → arr !! i = Some 1.
Proof.
  unfold rankedHits. rewrite foldl_collect. cbn [app].
  intros H. apply list_elem_of_fmap in H as (r & -> & H).
  rewrite js_sort_perm in H.
  apply list_elem_of_fmap in H as (j & -> & H). cbn [idx].
  apply list_elem_of_In, List.filter_In in H as [_ H].
  unfold slot_is in H. destruct (arr !! (start + j)%nat) as [v|]; [|done].
  apply Z.eqb_eq in H. by subst.
Qed.

Lemma rankedEmpties_slot (arr : list Z) (start len i : nat) :
  i ∈ rankedEmpties arr start len → arr !! i = Some 0.
Proof.
  unfold rankedEmpties. rewrite foldl_collect. cbn [app].
  intros H. apply list_elem_of_fmap in H as (r & -> & H).
  rewrite js_sort_perm in H.
  apply list_elem_of_fmap in H as (j & -> & H). cbn [idx].
  apply list_elem_of_In, List.filter_In in H as [_ H].
  unfold slot_is in H. destruct (arr !! (start + j)%nat) as [v|]; [|done].
  apply Z.eqb_eq in H. by subst.
Qed.

(** ** The minimal-move redistribution keeps length and hit count *)

Lemma move_once (out : list Z) (src dst : nat) :
  out !! src = Some 1 → out !! dst = Some 0 →
  ones (<[dst := 1]> (<[src := 0]> out)) = ones out
  ∧ length (<[dst := 1]> (<[src := 0]> out)) = length out.
Proof.
  intros Hs Hd. split; [|by rewrite !length_insert].
  assert (src ≠ dst) by (intros ->; congruence).
  rewrite (ones_insert _ dst 0 1) by (by rewrite list_lookup_insert_ne).
  rewrite (ones_insert _ src 1 0) by done. simpl. lia.
Qed.

Lemma moveLoop_keeps (moves : nat) (out : list Z) (ss sl ds dl : nat) :
  ones (moveLoop moves out ss sl ds dl) = ones out
  ∧ length (moveLoop moves out ss sl ds dl) = length out.
Proof.
  revert out; induction moves as [|m IH]; intros out; simpl; [done|].
  destruct (rankedHits out ss sl) as [|src hs] eqn:Eh; [done|].
  destruct (rankedEmpties out ds dl) as [|dst es] eqn:Ee; [done|].
  assert (Hs : out !! src = Some 1).
  { apply (rankedHits_slot out ss sl). rewrite Eh. apply list_elem_of_here. }
  assert (Hd : out !! dst = Some 0).
  { apply (rankedEmpties_slot out ds dl). rewrite Ee. apply list_elem_of_here. }
  destruct (move_once out src dst Hs Hd) as [H1 H2].
  destruct (IH (<[dst := 1]> (<[src := 0]> out))) as [H3 H4].
  split; congruence.
Qed.

Lemma applyHalfBiasTarget_keeps (arr : list Z) (target : Z) :
  ones (applyHalfBiasTarget arr target) = ones arr
  ∧ length (applyHalfBiasTarget arr target) = length arr.
Proof.
  unfold applyHalfBiasTarget.
  destruct (_ =? target); [done|]. apply moveLoop_keeps.
Qed.

(** ** Rotation *)

(** The write loop of [rotate], for any injective in-range target map:
    slot [f i] ends up holding [arr[i]]. *)
Lemma write_loop (arr out0 : list Z) (f : nat → nat) (k : nat) :
  (k ≤ length arr)%nat →
  (∀ i, (i < k)%nat → (f i < length out0)%nat) →
  (∀ i j, (i < k)%nat → (j < k)%nat → f i = f j → i = j) →
  let out := foldl (λ out i, match arr !! i with
                             | Some v => <[f i := v]> out
                             | None => out
                             end) out0 (seq 0 k) in
  length out = length out0 ∧ ∀ i, (i < k)%nat → out !! f i = arr !! i.
Proof.
  induction k as [|k IH]; intros Hk Hr Hinj; [split; [done|lia]|].
  rewrite seq_S, foldl_app. cbn [Nat.add foldl].
  destruct IH as [IHl IHv]; [lia|intros; apply Hr; lia|intros; apply Hinj; lia|].
  destruct (lookup_lt_is_Some_2 arr k ltac:(lia)) as [v Hv]. rewrite Hv.
  split; [by rewrite length_insert|].
  intros i Hi. destruct (decide (i = k)) as [->|Hne].
  - rewrite list_lookup_insert_eq; [done|]. rewrite IHl. apply Hr. lia.
  - rewrite list_lookup_insert_ne; [apply IHv; lia|].
    intros E. apply Hinj in E; lia.
Qed.

Lemma rotate_fill_spec (hole : Z) (arr : list Z) (shift : Z) :
  let n := Z.of_nat (length arr) in
  0 < shift < n →
  length (rotate_fill hole arr shift) = length arr
  ∧ ∀ j : nat, (j < length arr)%nat →
      rotate_fill hole arr shift !! j
      = arr !! Z.to_nat ((Z.of_nat j - shift) mod n).
Proof.
  intros n Hs. unfold rotate_fill. fold n.
  set (f := λ i : nat, Z.to_nat (Z.rem (Z.of_nat i + shift) n)).
  assert (Hf : ∀ i : nat, Z.of_nat (f i) = (Z.of_nat i + shift) mod n).
  { intros i. unfold f. rewrite Z.rem_mod_nonneg by lia.
    rewrite Z2Nat.id; [done|]. apply Z.mod_pos_bound. lia. }
  destruct (write_loop arr (replicate (length arr) hole) f (length arr))
    as [Hl Hv].
  - done.
  - intros i _. rewrite length_replicate.
    pose proof (Hf i). pose proof (Z.mod_pos_bound (Z.of_nat i + shift) n). lia.
  - intros i j Hi Hj E. apply (f_equal Z.of_nat) in E. rewrite !Hf in E.
    assert (Hc : ∀ x : Z, 0 ≤ x < n →
              (x + shift) mod n = if x + shift <? n then x + shift
                                  else x + shift - n).
    { intros x Hx. destruct (x + shift <? n) eqn:C.
      - apply Z.ltb_lt in C. apply Z.mod_small. lia.
      - apply Z.ltb_ge in C. symmetry. apply (Z.mod_unique _ _ 1); lia. }
    rewrite !Hc in E by lia.
    destruct (_ <? n) eqn:C1 in E; destruct (_ <? n) eqn:C2 in E;
      try apply Z.ltb_lt in C1; try apply Z.ltb_ge in C1;
      try apply Z.ltb_lt in C2; try apply Z.ltb_ge in C2; lia.
  - unfold indices.
    change (foldl _ _ _)
      with (foldl (λ out i, match arr !! i with
                            | Some v => <[f i := v]> out
                            | None => out
                            end)
                  (replicate (length arr) hole) (seq 0 (length arr))).
    split; [by rewrite Hl, length_replicate|].
    intros j Hj.
    set (i := Z.to_nat ((Z.of_nat j - shift) mod n)).
    pose proof (Z.mod_pos_bound (Z.of_nat j - shift) n ltac:(lia)) as Hb.
    assert (Hi : (i < length arr)%nat) by (unfold i; lia).
    rewrite <- (Hv i Hi). f_equal.
    apply Nat2Z.inj. rewrite Hf. unfold i. rewrite Z2Nat.id by lia.
    rewrite Zplus_mod_idemp_l. replace (_ - _ + _) with (Z.of_nat j) by lia.
    symmetry. apply Z.mod_small. lia.
Qed.

(** The shift [rotate] computes is the amount reduced into [0, n). *)
Lemma rotate_shift (amount n : Z) :
  0 < n →
  (if Z.rem amount n <? 0 then Z.rem amount n + n else Z.rem amount n)
  = amount mod n.
Proof.
  intros Hn.
  pose proof (Z.rem_bound_abs amount n ltac:(lia)) as Hb.
  pose proof (Z.quot_rem' amount n) as Hq.
  destruct (Z.rem amount n <? 0) eqn:C.
  - apply Z.ltb_lt in C. apply (Z.mod_unique _ _ (Z.quot amount n - 1)); lia.
  - apply Z.ltb_ge in C. apply (Z.mod_unique _ _ (Z.quot amount n)); lia.
Qed.

(** [rotate] is the circular shift: slot [j] of the result is slot
    [(j - amount) mod n] of the argument. *)
Lemma rotate_spec (arr : list Z) (amount : Z) :
  length (rotate arr amount) = length arr
  ∧ ∀ j : nat, (j < length arr)%nat →
      rotate arr amount !! j
      = arr !! Z.to_nat ((Z.of_nat j - amount) mod Z.of_nat (length arr)).
Proof.
  unfold rotate. set (n := Z.of_nat (length arr)).
  destruct (n <=? 0) eqn:Cn; [split; [done|intros; lia]|].
  apply Z.leb_gt in Cn. rewrite rotate_shift by done.
  pose proof (Z.mod_pos_bound amount n Cn) as Hb.
  destruct (amount mod n =? 0) eqn:C0.
  - apply Z.eqb_eq in C0. split; [done|]. intros j Hj. f_equal.
    rewrite Zminus_mod, C0, Z.sub_0_r, Z.mod_mod by lia.
    rewrite Z.mod_small by lia. lia.
  - apply Z.eqb_neq in C0.
    destruct (rotate_fill_spec 0 arr (amount mod n)) as [Hl Hv]; [fold n; lia|].
    split; [done|]. intros j Hj. rewrite Hv by done. fold n.
    by rewrite Zminus_mod_idemp_r.
Qed.

Lemma rotate_length (arr : list Z) (amount : Z) :
  length (rotate arr amount) = length arr.
Proof. apply rotate_spec. Qed.

Lemma rotate_drop_take (arr : list Z) (amount : Z) :
  let m := Z.to_nat ((- amount) mod Z.of_nat (length arr)) in
  rotate arr amount = drop m arr ++ take m arr.
Proof.
  intros m. destruct (rotate_spec arr amount) as [Hl Hv].
  destruct (decide (length arr = 0)%nat) as [E0|E0].
  { apply nil_length_inv in E0. subst arr. unfold rotate. simpl.
    by rewrite drop_nil, take_nil. }
  set (n := Z.of_nat (length arr)) in *.
  assert (Hn : 0 < n) by (unfold n; lia).
  pose proof (Z.mod_pos_bound (- amount) n Hn) as Hb.
  assert (Em : Z.of_nat m = (- amount) mod n) by (unfold m; lia).
  assert (Hm : (m < length arr)%nat) by (unfold n in *; lia).
  clearbody m.
  apply list_eq. intros j.
  destruct (decide (j < length arr)%nat) as [Hj|Hj].
  - rewrite Hv by done.
    replace (Z.of_nat j - amount) with (Z.of_nat j + - amount) by lia.
    rewrite <- Zplus_mod_idemp_r.
    rewrite <- Em.
    destruct (decide (j < length arr - m)%nat) as [Hjm|Hjm].
    + rewrite lookup_app_l by (rewrite length_drop; lia).
      rewrite lookup_drop. f_equal. rewrite Z.mod_small by lia. lia.
    + rewrite lookup_app_r by (rewrite length_drop; lia).
      rewrite length_drop, lookup_take_lt by lia. f_equal.
      rewrite <- (Z.mod_unique (Z.of_nat j + Z.of_nat m) n 1
                                (Z.of_nat j + Z.of_nat m - n)); lia.
  - rewrite !lookup_ge_None_2; [done| |lia].
    rewrite length_app, length_drop, length_take. lia.
Qed.

Lemma rotate_perm (arr : list Z) (amount : Z) : rotate arr amount ≡ₚ arr.
Proof.
  rewrite rotate_drop_take. rewrite Permutation_app_comm.
  by rewrite take_drop.
Qed.

Lemma rotate_ones (arr : list Z) (amount : Z) :
  ones (rotate arr amount) = ones arr.
Proof. apply ones_Permutation, rotate_perm. Qed.

(** ** The base placement *)

Lemma basePattern_length (steps hits : Z) :
  length (basePattern steps hits) = Z.to_nat steps.
Proof. unfold basePattern, indices. by rewrite length_map, length_seq. Qed.

Lemma basePattern_lookup (steps hits : Z) (i : nat) :
  0 < steps → 0 ≤ hits → (i < Z.to_nat steps)%nat →
  basePattern steps hits !! i
  = Some (if (Z.of_nat i * hits) mod steps <? hits then 1 else 0).
Proof.
  intros Hs Hh Hi. unfold basePattern, indices.
  rewrite list_lookup_fmap, lookup_seq_lt by done. cbn.
  rewrite Z.rem_mod_nonneg by lia. done.
Qed.

(** The quotient [x / n] grows by one exactly at the hits: the placement
    test is the carry of adding [hits] modulo [steps]. *)
Lemma carry_step (n h x : Z) :
  0 < n → 0 ≤ h ≤ n →
  x / n - (x - h) / n = if x mod n <? h then 1 else 0.
Proof.
  intros Hn Hh.
  pose proof (Z.div_mod x n ltac:(lia)) as Hx.
  pose proof (Z.mod_pos_bound x n Hn) as Hb.
  destruct (x mod n <? h) eqn:C.
  - apply Z.ltb_lt in C.
    rewrite <- (Z.div_unique (x - h) n (x / n - 1) (x mod n - h + n)); lia.
  - apply Z.ltb_ge in C.
    rewrite <- (Z.div_unique (x - h) n (x / n) (x mod n - h)); lia.
Qed.

Lemma ones_base_prefix (steps hits : Z) (k : nat) :
  0 < steps → 0 ≤ hits ≤ steps →
  ones (map (λ i : nat, if Z.rem (Z.of_nat i * hits) steps <? hits
                        then 1 else 0) (seq 0 k))
  = (Z.of_nat k * hits - hits) / steps - (- hits) / steps.
Proof.
  intros Hs Hh. induction k as [|k IH].
  - cbn [seq map ones]. change (Z.of_nat 0) with 0.
    rewrite Z.mul_0_l, Z.sub_0_l. lia.
  - rewrite seq_S, map_app, ones_app, IH. cbn [Nat.add map ones].
    rewrite Z.rem_mod_nonneg by lia.
    pose proof (carry_step steps hits (Z.of_nat k * hits) Hs Hh) as Hc.
    replace (Z.of_nat (S k) * hits - hits) with (Z.of_nat k * hits) by lia.
    destruct (_ <? hits); simpl; lia.
Qed.

Lemma ones_base (steps hits : Z) :
  0 < steps → 0 ≤ hits ≤ steps → ones (basePattern steps hits) = hits.
Proof.
  intros Hs Hh. unfold basePattern, indices.
  rewrite ones_base_prefix by done. rewrite Z2Nat.id by lia.
  destruct (Z.eq_dec hits 0) as [->|Hz].
  - rewrite Z.mul_0_r. change (0 - 0) with 0. change (- 0) with 0. lia.
  - rewrite <- (Z.div_unique (steps * hits - hits) steps (hits - 1)
                             (steps - hits)) by lia.
    rewrite <- (Z.div_unique (- hits) steps (-1) (steps - hits)) by lia.
    lia.
Qed.

Lemma rotate_rotate (p : list Z) (a b : Z) :
  rotate (rotate p a) b = rotate p ((a + b) mod Z.of_nat (length p)).
Proof.
  destruct (decide (length p = 0)%nat) as [E0|E0].
  { apply nil_length_inv in E0. by subst p. }
  set (n := Z.of_nat (length p)). assert (Hn : 0 < n) by (unfold n; lia).
  destruct (rotate_spec p a) as [La Va].
  destruct (rotate_spec (rotate p a) b) as [Lb Vb].
  destruct (rotate_spec p ((a + b) mod n)) as [Lc Vc].
  rewrite La in Lb, Vb. fold n in Va, Vb, Vc.
  apply list_eq. intros j.
  destruct (decide (j < length p)%nat) as [Hj|Hj].
  - rewrite Vb, Vc by done.
    pose proof (Z.mod_pos_bound (Z.of_nat j - b) n Hn) as Hb.
    rewrite Va by (unfold n in *; lia). f_equal. f_equal.
    rewrite Z2Nat.id by lia.
    rewrite Zminus_mod_idemp_l, Zminus_mod_idemp_r. f_equal. lia.
  - rewrite !lookup_ge_None_2; [done|lia|lia].
Qed.

Lemma rotate_full_turn (p : list Z) : rotate p (Z.of_nat (length p)) = p.
Proof.
  unfold rotate. destruct (_ <=? 0) eqn:C; [done|].
  apply Z.leb_gt in C. rewrite Z.rem_same by lia. done.
Qed.

End EuclidFacts.

(** * Properties of the superseded centre placement *)

Module LegacyFacts.
Import Euclid Legacy EuclidFacts.

Lemma foldl_snoc_map {A B} (f : A → B) (l : list A) (acc : list B) :
  foldl (λ acc i, acc ++ [f i]) acc l = acc ++ map f l.
Proof.
  revert acc; induction l as [|x l IH]; intros acc; simpl.
  - by rewrite app_nil_r.
  - rewrite IH. by rewrite <- app_assoc.
Qed.

Lemma centerOrder_perm (start len : nat) :
  centerOrder start len ≡ₚ seq start len.
Proof.
  unfold centerOrder, indices. rewrite foldl_snoc_map. cbn [app].
  rewrite js_sort_perm, map_map. cbn [idx].
  replace (seq start len) with (seq (start + 0) len) by (f_equal; lia).
  by rewrite <- fmap_add_seq.
Qed.

Lemma centerOrder_NoDup (start len : nat) : NoDup (centerOrder start len).
Proof. rewrite centerOrder_perm. apply NoDup_seq. Qed.

Lemma centerOrder_range (start len i : nat) :
  i ∈ centerOrder start len ↔ (start ≤ i < start + len)%nat.
Proof. rewrite centerOrder_perm. apply elem_of_seq. Qed.

Lemma all01_insert_one (l : list Z) (i : nat) : all01 l → all01 (<[i := 1]> l).
Proof.
  unfold all01. intros H. destruct (decide (i < length l)%nat).
  - apply Forall_insert; [done|by right].
  - by rewrite list_insert_ge by lia.
Qed.

Lemma slot_is_insert_one (l : list Z) (i j : nat) :
  slot_is l j 0 = false → slot_is (<[i := 1]> l) j 0 = false.
Proof.
  unfold slot_is. intros H. destruct (decide (i = j)) as [->|Hne].
  - destruct (decide (j < length l)%nat).
    + by rewrite list_lookup_insert_eq.
    + by rewrite list_insert_ge by lia.
  - by rewrite list_lookup_insert_ne.
Qed.

(** A full array of zeros and ones without a zero counts its length. *)
Lemma ones_full (l : list Z) :
  all01 l → (∀ i, (i < length l)%nat → slot_is l i 0 = false) →
  ones l = Z.of_nat (length l).
Proof.
  induction l as [|x l IH]; intros H01 Hnz; [done|].
  apply Forall_cons in H01 as [Hx H01].
  pose proof (Hnz 0%nat ltac:(simpl; lia)) as H0. unfold slot_is in H0.
  cbn in H0. cbn [ones length]. rewrite IH; [|done|].
  - destruct Hx as [->| ->]; [done|]. simpl. lia.
  - intros i Hi. apply (Hnz (S i)). simpl. lia.
Qed.

Lemma placeLoop_spec (order : list nat) (limit : Z) (out : list Z)
    (placed : Z) (out' : list Z) (placed' : Z) :
  NoDup order → (∀ i, i ∈ order → out !! i = Some 0) →
  placeLoop order limit out placed = (out', placed') →
  ones out' - placed' = ones out - placed
  ∧ placed ≤ placed' ≤ Z.max placed limit
  ∧ length out' = length out
  ∧ (∀ j, j ∉ order → out' !! j = out !! j)
  ∧ (all01 out → all01 out').
Proof.
  revert out placed; induction order as [|i order IH];
    intros out placed Hnd Hz E; simpl in E.
  { injection E as <- <-. repeat split; try done; lia. }
  apply NoDup_cons in Hnd as [Hi Hnd].
  destruct (placed <? limit) eqn:C.
  - apply Z.ltb_lt in C.
    apply IH in E as (E1 & E2 & E3 & E4 & E5); [|done|].
    + rewrite (ones_insert _ _ 0 1) in E1 by (apply Hz; left).
      rewrite length_insert in E3. cbn in E1.
      repeat split; [lia|lia|lia|done| |].
      * intros j Hj. apply not_elem_of_cons in Hj as [Hji Hj].
        rewrite E4 by done. by rewrite list_lookup_insert_ne.
      * intros H. by apply E5, all01_insert_one.
    + intros j Hj. rewrite list_lookup_insert_ne; [apply Hz; by right|].
      intros ->. done.
  - apply Z.ltb_ge in C. injection E as <- <-. repeat split; try done; lia.
Qed.

Lemma fallbackLoop_spec (ixs : list nat) (hits : Z) (out : list Z)
    (placed : Z) (out' : list Z) (placed' : Z) :
  fallbackLoop ixs hits out placed = (out', placed') →
  ones out' - placed' = ones out - placed
  ∧ placed ≤ placed' ≤ Z.max placed hits
  ∧ length out' = length out
  ∧ (all01 out → all01 out')
  ∧ (∀ j, slot_is out j 0 = false → slot_is out' j 0 = false)
  ∧ (placed' < hits → ∀ i, i ∈ ixs → slot_is out' i 0 = false).
Proof.
  revert out placed; induction ixs as [|i ixs IH];
    intros out placed E; simpl in E.
  { injection E as <- <-. repeat split; try done; try lia.
    intros _ i Hi. by apply elem_of_nil in Hi. }
  destruct (placed <? hits) eqn:C.
  - apply Z.ltb_lt in C. destruct (slot_is out i 0) eqn:S0.
    + apply IH in E as (E1 & E2 & E3 & E4 & E5 & E6).
      assert (Hi : out !! i = Some 0).
      { unfold slot_is in S0. destruct (out !! i) as [v|]; [|done].
        apply Z.eqb_eq in S0. by subst. }
      rewrite (ones_insert _ _ 0 1) in E1 by done.
      rewrite length_insert in E3. cbn in E1.
      repeat split; [lia|lia|lia|done| | |].
      * intros H. by apply E4, all01_insert_one.
      * intros j Hj. by apply E5, slot_is_insert_one.
      * intros Hp j Hj. apply elem_of_cons in Hj as [->|Hj]; [|by apply E6].
        apply E5. unfold slot_is. rewrite list_lookup_insert_eq; [done|].
        by apply lookup_lt_Some in Hi.
    + apply IH in E as (E1 & E2 & E3 & E4 & E5 & E6).
      repeat split; [lia|lia|lia|done|done|done|].
      intros Hp j Hj. apply elem_of_cons in Hj as [->|Hj]; [|by apply E6].
      by apply E5.
  - apply Z.ltb_ge in C. injection E as <- <-.
    repeat split; try done; lia.
Qed.

(** The rebuild places exactly [hits] hits when the target for the front
    half does not exceed [hits] and [hits] fits in the array. *)
Lemma applyHalfBiasTarget_ones (arr : list Z) (hits target : Z) :
  0 ≤ hits ≤ Z.of_nat (length arr) → target ≤ hits →
  ones (Legacy.applyHalfBiasTarget arr hits target) = hits
  ∧ length (Legacy.applyHalfBiasTarget arr hits target) = length arr.
Proof.
  intros Hh Ht. unfold Legacy.applyHalfBiasTarget.
  set (n := length arr). set (half := (n / 2)%nat).
  assert (Hhalf : (half ≤ n)%nat) by (apply Nat.Div0.div_le_upper_bound; lia).
  destruct (placeLoop (centerOrder 0 half) target (replicate n 0) 0)
    as [out1 p1] eqn:E1.
  apply placeLoop_spec in E1 as (A1 & A2 & A3 & A4 & A5);
    [|apply centerOrder_NoDup|].
  2:{ intros i Hi. apply centerOrder_range in Hi.
      apply lookup_replicate_2. lia. }
  destruct (placeLoop (centerOrder half (n - half)) hits out1 p1)
    as [out2 p2] eqn:E2.
  apply placeLoop_spec in E2 as (B1 & B2 & B3 & B4 & B5);
    [|apply centerOrder_NoDup|].
  2:{ intros i Hi. apply centerOrder_range in Hi. rewrite A4.
      - apply lookup_replicate_2. lia.
      - rewrite centerOrder_range. lia. }
  assert (Hz : ones (replicate n 0) = 0).
  { clear. induction n as [|n IH]; simpl; [done|]. by rewrite IH. }
  assert (H01 : all01 (replicate n 0)).
  { apply Forall_replicate. by left. }
  rewrite length_replicate in A3.
  destruct (p2 <? hits) eqn:C.
  - apply Z.ltb_lt in C.
    destruct (fallbackLoop (indices n) hits out2 p2) as [out3 p3] eqn:E3.
    apply fallbackLoop_spec in E3 as (C1 & C2 & C3 & C4 & _ & C6).
    split; [|congruence].
    destruct (Z.lt_ge_cases p3 hits) as [Hlt|Hge]; [|lia].
    rewrite (ones_full out3) in C1.
    + assert (length out3 = n) by congruence. fold n in Hh. lia.
    + auto.
    + intros i Hi. apply C6; [done|]. unfold indices. apply elem_of_seq.
      assert (length out3 = n) by congruence. lia.
  - apply Z.ltb_ge in C. split; [lia|congruence].
Qed.

(** Rounding a fraction of [hits] never exceeds [hits] when the bias is
    not negative. *)
Lemma target_le_hits (hits : Z) (bias : Q) :
  0 ≤ hits → (0 <= bias)%Q →
  js_round (inject_Z hits * (1 - bias))%Q ≤ hits.
Proof.
  intros Hh Hb. unfold js_round.
  set (y := (inject_Z hits * (1 - bias) + (1 # 2))%Q).
  assert (Hy : (y <= inject_Z hits + (1 # 2))%Q).
  { assert (H0 : (0 <= inject_Z hits)%Q).
    { change 0%Q with (inject_Z 0). by rewrite <- Zle_Qle. }
    unfold y. nra. }
  pose proof (Qfloor_le y) as Hf.
  assert (Hlt : (inject_Z (Qfloor y) < inject_Z (hits + 1))%Q).
  { eapply Qle_lt_trans; [exact Hf|]. eapply Qle_lt_trans; [exact Hy|].
    rewrite inject_Z_plus. apply Qplus_lt_r. reflexivity. }
  rewrite <- Zlt_Qlt in Hlt. lia.
Qed.

Lemma applyHalfBias01_ones (arr : list Z) (bias : Q) :
  (0 <= bias)%Q →
  ones (Legacy.applyHalfBias01 arr bias) = ones arr
  ∧ length (Legacy.applyHalfBias01 arr bias) = length arr.
Proof.
  intros Hb. unfold Legacy.applyHalfBias01.
  change (foldl _ 0 (indices (length arr)))
    with (countHits arr 0 (length arr)).
  rewrite countHits_ones.
  pose proof (ones_nonneg arr). pose proof (ones_le_length arr).
  apply applyHalfBiasTarget_ones; [lia|].
  by apply target_le_hits.
Qed.

End LegacyFacts.

(** * The specification's statements about the generator *)

Module GeneratorSpec.
Import Euclid EuclidFacts LegacyFacts.

(** C1.  With neutral bias and no rotation the generator returns the
    Euclidean placement: a pattern of length [steps] whose entry [i] is
    the truth value of [(i * hits) mod steps < hits].  For 16 steps, 4
    hits land on 0, 4, 8, 12, and 2 hits rotated by 4 on 4 and 12. *)
Theorem generate_neutral_placement :
  (∀ (steps hits : Z) (bias : Q),
     1 ≤ steps → 0 ≤ hits ≤ steps → (bias == 1 # 2)%Q →
     let p := generateEuclidPattern (mkParams steps hits bias 0) in
     length p = Z.to_nat steps
     ∧ ∀ i : nat, (i < Z.to_nat steps)%nat →
         p !! i = Some ((Z.of_nat i * hits) mod steps <? hits))
  ∧ hitIndices (generateEuclidPattern (mkParams 16 4 (1 # 2) 0))
    = [0; 4; 8; 12]%nat
  ∧ hitIndices (generateEuclidPattern (mkParams 16 2 (1 # 2) 4))
    = [4; 12]%nat.
Proof.
  split; [|split; reflexivity].
  intros steps hits bias Hs Hh Hb p. subst p. unfold generateEuclidPattern.
  replace ((steps <=? 0) || (hits <? 0) || (steps <? hits)) with false
    by (symmetry; rewrite !orb_false_iff, Z.leb_gt, !Z.ltb_ge; lia).
  apply Qeq_bool_iff in Hb. rewrite Hb. cbn [Z.eqb]. unfold toPattern.
  split; [by rewrite length_map, basePattern_length|].
  intros i Hi. rewrite list_lookup_fmap, basePattern_lookup by lia. cbn.
  by destruct (_ <? hits).
Qed.

Lemma generate_neutral_placement_witness :
  let p := generateEuclidPattern (mkParams 16 4 (1 # 2) 0) in
  length p = 16%nat ∧ p !! 4%nat = Some true ∧ p !! 5%nat = Some false.
Proof.
  destruct (proj1 generate_neutral_placement 16 4 (1 # 2)) as [Hl Hv];
    [lia|lia|reflexivity|].
  split; [exact Hl|]. split; [apply (Hv 4%nat)|apply (Hv 5%nat)]; simpl; lia.
Defined.

(** C2.  For valid parameters and a bias in [0, 1] the redistribution
    step keeps the number of hits of the base pattern; only their
    positions change.  This holds for the minimal-move redistribution and
    for the superseded centre placement alike. *)
Theorem bias_preserves_hit_count (steps hits : Z) (bias : Q) :
  1 ≤ steps → 0 ≤ hits ≤ steps → (0 <= bias <= 1)%Q →
  let base := basePattern steps hits in
  (popcount (toPattern (applyHalfBias01 base bias)) = popcount (toPattern base)
   ∧ length (applyHalfBias01 base bias) = length base)
  ∧ (popcount (toPattern (Legacy.applyHalfBias01 base bias))
     = popcount (toPattern base)
     ∧ length (Legacy.applyHalfBias01 base bias) = length base).
Proof.
  intros _ _ [Hb _] base. rewrite !popcount_ones. split.
  - apply applyHalfBiasTarget_keeps.
  - by apply applyHalfBias01_ones.
Qed.

Lemma bias_preserves_hit_count_witness :
  let base := basePattern 8 3 in
  (popcount (toPattern (applyHalfBias01 base (7 # 10))) = popcount (toPattern base)
   ∧ length (applyHalfBias01 base (7 # 10)) = length base)
  ∧ (popcount (toPattern (Legacy.applyHalfBias01 base (7 # 10)))
     = popcount (toPattern base)
     ∧ length (Legacy.applyHalfBias01 base (7 # 10)) = length base).
Proof.
  apply (bias_preserves_hit_count 8 3 (7 # 10)); [lia|lia|].
  split; unfold Qle; simpl; lia.
Defined.

(** C6.  Degenerate parameters ([steps <= 0], [hits < 0] or
    [hits > steps]) give the all-false pattern of length
    [max(0, steps)], whatever the bias and the rotation; the function is
    total, there is no failing path. *)
Theorem generate_degenerate (steps hits : Z) (bias : Q) (rotation : Z) :
  steps ≤ 0 ∨ hits < 0 ∨ hits > steps →
  generateEuclidPattern (mkParams steps hits bias rotation)
  = replicate (Z.to_nat (Z.max 0 steps)) false.
Proof.
  intros H. unfold generateEuclidPattern.
  replace ((steps <=? 0) || (hits <? 0) || (steps <? hits)) with true; [done|].
  symmetry. rewrite !orb_true_iff, Z.leb_le, !Z.ltb_lt. lia.
Qed.

Lemma generate_degenerate_witness :
  generateEuclidPattern (mkParams 3 5 (7 # 10) 2) = [false; false; false]
  ∧ generateEuclidPattern (mkParams (-4) 2 (1 # 2) 0) = [].
Proof.
  split.
  - apply (generate_degenerate 3 5 (7 # 10) 2). lia.
  - apply (generate_degenerate (-4) 2 (1 # 2) 0). lia.
Defined.

(** C5.  Rotation is a circular shift by the amount reduced into
    [0, steps): the result has the length of the argument and its slot
    [j] holds what slot [(j - amount) mod steps] of the argument held, so
    every hit moves [amount mod steps] places up, wrapping around; two
    rotations compose to the rotation by [(a + b) mod steps], also for
    negative amounts, a rotation by [steps] is the identity, and no
    rotation changes the number of hits. *)
Theorem rotate_group_action (p : list Z) (a b : Z) :
  (1 ≤ length p)%nat →
  (length (rotate p a) = length p
   ∧ ∀ j : nat, (j < length p)%nat →
       rotate p a !! j
       = p !! Z.to_nat ((Z.of_nat j - a) mod Z.of_nat (length p)))
  ∧ rotate (rotate p a) b = rotate p ((a + b) mod Z.of_nat (length p))
  ∧ rotate p (Z.of_nat (length p)) = p
  ∧ popcount (toPattern (rotate p a)) = popcount (toPattern p).
Proof.
  intros _. split; [apply rotate_spec|].
  split; [apply rotate_rotate|].
  split; [apply rotate_full_turn|].
  rewrite !popcount_ones. apply rotate_ones.
Qed.

Lemma rotate_group_action_witness :
  (length (rotate [1; 0; 0; 1; 0] (-7)) = 5%nat
   ∧ ∀ j : nat, (j < 5)%nat →
       rotate [1; 0; 0; 1; 0] (-7) !! j
       = [1; 0; 0; 1; 0] !! Z.to_nat ((Z.of_nat j - -7) mod 5))
  ∧ rotate (rotate [1; 0; 0; 1; 0] (-7)) 4 = rotate [1; 0; 0; 1; 0] 2
  ∧ rotate [1; 0; 0; 1; 0] 5 = [1; 0; 0; 1; 0]
  ∧ popcount (toPattern (rotate [1; 0; 0; 1; 0] (-7))) = 2.
Proof.
  apply (rotate_group_action [1; 0; 0; 1; 0] (-7) 4). simpl. lia.
Defined.

(** C10.  For [steps >= 1] and [0 <= hits <= steps] the generator keeps
    its guarantees for every bias, inside [0, 1] or not, and every
    integer rotation: the pattern has length [steps] and exactly [hits]
    true entries. *)
Theorem generate_length_and_hits (steps hits : Z) (bias : Q) (rotation : Z) :
  1 ≤ steps → 0 ≤ hits ≤ steps →
  let p := generateEuclidPattern (mkParams steps hits bias rotation) in
  length p = Z.to_nat steps ∧ popcount p = hits.
Proof.
  intros Hs Hh p. subst p. unfold generateEuclidPattern.
  replace ((steps <=? 0) || (hits <? 0) || (steps <? hits)) with false
    by (symmetry; rewrite !orb_false_iff, Z.leb_gt, !Z.ltb_ge; lia).
  set (base := basePattern steps hits).
  set (biased := if Qeq_bool bias (1 # 2) then base
                 else applyHalfBias01 base bias).
  assert (Hb : ones biased = hits ∧ length biased = Z.to_nat steps).
  { unfold biased. destruct (Qeq_bool bias (1 # 2)).
    - split; [apply ones_base; lia|apply basePattern_length].
    - destruct (applyHalfBiasTarget_keeps base (targetFront base bias))
        as [H1 H2].
      unfold applyHalfBias01. rewrite H1, H2.
      split; [apply ones_base; lia|apply basePattern_length]. }
  destruct Hb as [Ho Hl].
  rewrite popcount_ones. unfold toPattern. rewrite length_map.
  destruct (rotation =? 0); [done|].
  by rewrite rotate_length, rotate_ones.
Qed.

Lemma generate_length_and_hits_witness :
  let p := generateEuclidPattern (mkParams 8 3 (-5 # 2) (-11)) in
  length p = 8%nat ∧ popcount p = 3.
Proof. apply (generate_length_and_hits 8 3 (-5 # 2) (-11)); lia. Defined.

End GeneratorSpec.

(** * Properties of cycle alignment and of the scheduler *)

Module AudioFacts.
Import Audio.

(** ** Cycle length *)

Lemma gcd_loop_gcd (x y : Z) : 0 ≤ x → 0 ≤ y → gcd_loop x y = Z.gcd x y.
Proof.
  funelim (gcd_loop x y); intros Hx0 Hy0.
  - subst y. rewrite Z.gcd_0_r. lia.
  - rewrite H.
    + rewrite Z.gcd_comm, Z.gcd_rem by done. apply Z.gcd_comm.
    + lia.
    + apply Z.rem_nonneg; lia.
Qed.

Lemma gcd_pos (a b : Z) : 0 < a → 0 < b → gcd a b = Z.gcd a b.
Proof.
  intros Ha Hb. unfold gcd. rewrite gcd_loop_gcd by lia.
  rewrite Z.gcd_abs_l, Z.gcd_abs_r.
  destruct (Z.gcd a b =? 0) eqn:C; [|done].
  apply Z.eqb_eq, Z.gcd_eq_0 in C. lia.
Qed.

Lemma lcm_pos (a b : Z) : 0 < a → 0 < b → lcm a b = Z.lcm a b ∧ 0 < lcm a b.
Proof.
  intros Ha Hb. unfold lcm. rewrite gcd_pos by done.
  assert (Hg : 0 < Z.gcd a b).
  { pose proof (Z.gcd_nonneg a b).
    destruct (Z.eq_dec (Z.gcd a b) 0) as [E|E]; [|lia].
    apply Z.gcd_eq_0 in E. lia. }
  assert (E : Z.abs (a * b) / Z.gcd a b = Z.lcm a b).
  { unfold Z.lcm. rewrite Z.abs_eq by nia.
    rewrite Z.divide_div_mul_exact; [|lia|apply Z.gcd_divide_r].
    symmetry. apply Z.abs_eq.
    apply Z.mul_nonneg_nonneg; [lia|]. apply Z.div_pos; lia. }
  rewrite E. split; [done|].
  pose proof (Z.lcm_nonneg a b).
  destruct (Z.eq_dec (Z.lcm a b) 0) as [E0|E0]; [|lia].
  apply Z.lcm_eq_0 in E0. lia.
Qed.

Lemma foldl_lcm_spec (rest : list Z) (first : Z) :
  0 < first → Forall (λ x, 0 < x) rest →
  let r := foldl lcm first rest in
  0 < r ∧ (first | r) ∧ Forall (λ x, (x | r)) rest
  ∧ ∀ m, (first | m) → Forall (λ x, (x | m)) rest → (r | m).
Proof.
  revert first; induction rest as [|x rest IH]; intros first Hf Hr; simpl.
  - repeat split; [done|done|constructor|done].
  - apply Forall_cons in Hr as [Hx Hr].
    destruct (lcm_pos first x Hf Hx) as [E Hp]. rewrite E in Hp |- *.
    destruct (IH (Z.lcm first x) Hp Hr) as (I1 & I2 & I3 & I4).
    repeat split; [done| | |].
    + apply (Z.divide_trans _ (Z.lcm first x)); [apply Z.divide_lcm_l|done].
    + constructor; [|done].
      apply (Z.divide_trans _ (Z.lcm first x)); [apply Z.divide_lcm_r|done].
    + intros m Hm Ha. apply Forall_cons in Ha as [Hxm Ha].
      apply I4; [|done]. by apply Z.lcm_least.
Qed.

Lemma filter_all {A} (P : A → bool) (l : list A) :
  Forall (λ x, P x = true) l → List.filter P l = l.
Proof.
  induction 1 as [|x l Hx _ IH]; simpl; [done|]. by rewrite Hx, IH.
Qed.

(** ** Step interval *)

Lemma rem2_even (c : Z) : (Z.rem c 2 =? 0) = Z.even c.
Proof.
  rewrite Zeven_mod. apply eq_iff_eq_true.
  rewrite !Z.eqb_eq. by apply Z.rem_mod_eq_0.
Qed.

(** Clamping the scaled swing is scaling the clamped swing. *)
Lemma swing_ratio (u : Q) :
  (Qmax 0 (Qmin (3 # 10) (u * (3 # 10))) == clamp u 0 1 * (3 # 10))%Q.
Proof.
  unfold clamp.
  destruct (Q.min_spec (3 # 10) (u * (3 # 10))) as [[H1 E1]|[H1 E1]];
    rewrite E1;
    destruct (Q.min_spec 1 u) as [[H2 E2]|[H2 E2]]; rewrite E2; try lra.
  - destruct (Q.max_spec 0 (3 # 10)) as [[H3 E3]|[H3 E3]]; rewrite E3;
      destruct (Q.max_spec 0 1) as [[H4 E4]|[H4 E4]]; rewrite E4; lra.
  - destruct (Q.max_spec 0 (u * (3 # 10))) as [[H3 E3]|[H3 E3]]; rewrite E3;
      destruct (Q.max_spec 0 u) as [[H4 E4]|[H4 E4]]; rewrite E4; lra.
Qed.

Lemma stepInterval_spec (transport : TransportState) (c : Z) :
  (stepInterval transport c
   == specInterval (clamp (bpm transport) 40 300) (swing transport) c)%Q.
Proof.
  unfold stepInterval, specInterval. rewrite rem2_even.
  pose proof (swing_ratio (swing transport / 100)) as Hs.
  unfold clamp at 2 3. destruct (Z.even c); by rewrite Hs.
Qed.

(** ** What [schedule] sends to the sink *)

Lemma foldl_emit {A B} (ready : bool) (P : A → bool) (f : A → B)
    (l : list A) (acc : list B) :
  foldl (λ acc x, if P x then (if ready then acc ++ [f x] else acc) else acc)
        acc l
  = acc ++ (if ready then map f (List.filter P l) else []).
Proof.
  revert acc; induction l as [|x l IH]; intros acc; simpl.
  - destruct ready; by rewrite app_nil_r.
  - rewrite IH. destruct (P x), ready; simpl; try done.
    by rewrite <- app_assoc.
Qed.

Lemma schedule_calls (ready : bool) (tracks : list Track) (step : Z)
    (scheduledTime now : Q) :
  schedule ready tracks step scheduledTime now
  = if ready
    then map (λ tr, mkTrigger (id tr) (volume tr / 100)
                              (Qmax scheduledTime (now + (1 # 1000))))
             (List.filter (shouldPlay (existsb solo tracks) step) tracks)
    else [].
Proof.
  unfold schedule, triggerDrumSound.
  exact (foldl_emit ready (shouldPlay (existsb solo tracks) step)
           (λ tr, mkTrigger (id tr) (volume tr / 100)
                            (Qmax scheduledTime (now + (1 # 1000))))
           tracks []).
Qed.

Lemma filter_bool_prop {A} (P : A → bool) (R : A → Prop)
    `{!∀ x, Decision (R x)} (l : list A) :
  Forall (λ x, P x = true ↔ R x) l → List.filter P l = filter R l.
Proof.
  induction 1 as [|x l Hx _ IH]; [done|].
  cbn [List.filter]. rewrite filter_cons, IH.
  destruct (P x) eqn:E.
  - rewrite decide_True; [done|]. by apply Hx.
  - rewrite decide_False; [done|]. intros HR. apply Hx in HR. congruence.
Qed.

Lemma no_solo (tracks : list Track) :
  existsb solo tracks = false ↔ Forall (λ t, solo t = false) tracks.
Proof.
  induction tracks as [|t tracks IH]; simpl.
  - split; [constructor|done].
  - rewrite orb_false_iff, Forall_cons, IH. done.
Qed.

Lemma patternAt_mod (pattern : list bool) (step steps : Z) :
  0 ≤ step → 0 < steps →
  patternAt pattern (js_rem step steps) = true
  ↔ pattern !! Z.to_nat (step mod steps) = Some true.
Proof.
  intros Hs Hn. unfold js_rem, patternAt.
  destruct (steps =? 0) eqn:C; [apply Z.eqb_eq in C; lia|].
  rewrite Z.rem_mod_nonneg by lia.
  pose proof (Z.mod_pos_bound step steps Hn) as Hb.
  destruct (_ <? 0) eqn:C0; [apply Z.ltb_lt in C0; lia|].
  destruct (pattern !! _) as [[]|]; simpl; split; congruence.
Qed.

End AudioFacts.

(** * The specification's statements about alignment and scheduling *)

Module SchedulerSpec.
Import Audio AudioFacts.

(** C4.  For tracks with positive step counts and a time signature that
    parses as [N/D] with [D <> 0], the aligned cycle length is the least
    common multiple of all track step counts and of
    [impliedSteps = max(1, N * max(1, floor(16 / D)))]; for steps 16 and
    8 under 3/4 it is 48. *)
Theorem cycle_length_is_lcm :
  (∀ (tracks : list Track) (timeSignature : string) (N D : Z),
     Forall (λ tr, 0 < steps tr) tracks →
     parseTimeSignature timeSignature = Some (N, D) →
     D ≠ 0
     ∧ is_lcm_of (map steps tracks ++ [impliedSteps N D])
                 (calculateCycleLength tracks timeSignature))
  ∧ calculateCycleLength [trackOfSteps 16; trackOfSteps 8] "3/4" = 48.
Proof.
  split; [|reflexivity].
  intros tracks ts N D Hpos Hparse.
  assert (HD : D ≠ 0).
  { unfold parseTimeSignature in Hparse.
    destruct (parseInt _) as [n|]; [|done].
    destruct (parseInt _) as [d|]; [|done].
    destruct (d =? 0) eqn:C; [done|]. apply Z.eqb_neq in C. congruence. }
  split; [done|].
  unfold calculateCycleLength, timeSignatureToSteps. rewrite Hparse.
  fold (impliedSteps N D).
  assert (Hsig : 0 < impliedSteps N D) by (unfold impliedSteps; lia).
  assert (Hall : Forall (λ x, 0 < x) (map steps tracks ++ [impliedSteps N D])).
  { apply Forall_app. split; [|by repeat constructor].
    apply Forall_fmap. exact Hpos. }
  rewrite (filter_all (λ steps, 0 <? steps) (map steps tracks)).
  2:{ apply Forall_fmap. eapply Forall_impl; [exact Hpos|].
      intros tr Htr. cbn beta in *. by apply Z.ltb_lt. }
  rewrite filter_all.
  2:{ eapply Forall_impl; [exact Hall|]. intros x Hx. cbn beta in *.
      apply negb_true_iff, Z.eqb_neq. lia. }
  destruct (map steps tracks ++ [impliedSteps N D]) as [|first rest] eqn:E.
  { by destruct (map steps tracks). }
  apply Forall_cons in Hall as [Hf Hr].
  destruct (foldl_lcm_spec rest first Hf Hr) as (H1 & H2 & H3 & H4).
  repeat split; [done|by constructor|].
  intros m Hm Hdiv. apply Forall_cons in Hdiv as [Hd1 Hd2].
  apply Z.divide_pos_le; [done|]. by apply H4.
Qed.

Lemma cycle_length_is_lcm_witness :
  is_lcm_of [16; 8; 12]
            (calculateCycleLength [trackOfSteps 16; trackOfSteps 8] "3/4").
Proof.
  apply (proj1 cycle_length_is_lcm
                [trackOfSteps 16; trackOfSteps 8] "3/4"%string 3 4).
  - repeat constructor.
  - reflexivity.
Defined.

(** C7.  When the time signature does not parse (the numerator or the
    denominator is not a number, or the denominator is 0), the implied
    step count is 16, the value cycle alignment then uses; no
    call fails. *)
Theorem unparseable_signature_gives_16 (timeSignature : string) :
  let parts := splitSlash timeSignature "" in
  parseInt (parts !! 0%nat) = None
  ∨ parseInt (parts !! 1%nat) = None
  ∨ parseInt (parts !! 1%nat) = Some 0 →
  parseTimeSignature timeSignature = None
  ∧ timeSignatureToSteps timeSignature = 16
  ∧ ∀ tracks, calculateCycleLength tracks timeSignature
              = calculateCycleLength tracks "4/4".
Proof.
  intros parts H.
  assert (Hp : parseTimeSignature timeSignature = None).
  { unfold parseTimeSignature. fold parts.
    destruct H as [-> | [-> | ->]]; [done| |].
    - by destruct (parseInt (parts !! 0%nat)).
    - by destruct (parseInt (parts !! 0%nat)). }
  assert (Hs : timeSignatureToSteps timeSignature = 16).
  { unfold timeSignatureToSteps. by rewrite Hp. }
  split; [done|]. split; [done|].
  intros tracks. unfold calculateCycleLength. by rewrite Hs.
Qed.

Lemma unparseable_signature_gives_16_witness :
  timeSignatureToSteps "x/4" = 16
  ∧ timeSignatureToSteps "4" = 16
  ∧ timeSignatureToSteps "4/0" = 16.
Proof.
  split; [|split].
  - apply (unparseable_signature_gives_16 "x/4"). left. reflexivity.
  - apply (unparseable_signature_gives_16 "4"). right. left. reflexivity.
  - apply (unparseable_signature_gives_16 "4/0"). right. right. reflexivity.
Defined.

(** C3, as the specification words it, fails: after firing step 0 at
    120 bpm with full swing the new step index is 1, an odd index, and
    the interval added is the long one, 0.1625 s, not the short one. *)
Lemma interval_parity_of_new_index_fails :
  let transport := mkTransport 120 100 "4/4" in
  let refs := mkRefs 0 0 16 in
  let refs' := nextStep transport refs in
  currentStepRef refs' = 1
  ∧ (nextTimeRef refs' - nextTimeRef refs == 1625 # 10000)%Q
  ∧ ¬ (nextTimeRef refs' - nextTimeRef refs
       == specInterval 120 100 (currentStepRef refs'))%Q.
Proof.
  cbv zeta. split; [reflexivity|]. split; [reflexivity|].
  intros H. vm_compute in H. discriminate H.
Qed.

(** C3, amended.  [nextStep] adds to [nextTimeRef] the interval
    [base * (1 + swingRatio)] when the step index before advancing (the
    step just scheduled) is even and [base * (1 - swingRatio)] when it is
    odd, with [base = 60 / bpm / 4] for the bpm clamped to [40, 300] and
    [swingRatio = clamp(swing / 100, 0, 1) * 0.30]; it then advances the
    index modulo the cycle.  At 120 bpm and swing 100 the interval after
    an even step is 0.1625 s and after an odd step 0.0875 s. *)
Theorem interval_parity_of_fired_step :
  (∀ (transport : TransportState) (refs : Refs),
     let refs' := nextStep transport refs in
     (nextTimeRef refs' - nextTimeRef refs
      == specInterval (clamp (bpm transport) 40 300) (swing transport)
                      (currentStepRef refs))%Q
     ∧ currentStepRef refs'
       = Z.rem (currentStepRef refs + 1) (Z.max 1 (cycleLengthRef refs)))
  ∧ (∀ (timeSignature : string) (refs : Refs),
       let refs' := nextStep (mkTransport 120 100 timeSignature) refs in
       (nextTimeRef refs' - nextTimeRef refs
        == if Z.even (currentStepRef refs) then 1625 # 10000
           else 875 # 10000)%Q).
Proof.
  assert (G : ∀ transport refs,
            (nextTimeRef (nextStep transport refs) - nextTimeRef refs
             == specInterval (clamp (bpm transport) 40 300) (swing transport)
                             (currentStepRef refs))%Q).
  { intros transport refs. unfold nextStep. cbn [nextTimeRef].
    rewrite stepInterval_spec. ring. }
  split.
  - intros transport refs refs'. split; [apply G|reflexivity].
  - intros ts refs refs'. unfold refs'. rewrite G. cbn [bpm swing].
    unfold specInterval. by destruct (Z.even (currentStepRef refs)).
Qed.

(** C8.  Every trigger [schedule] sends to the sink carries the time
    [max(scheduledTime, now + 0.001)], which lies strictly after the
    clock reading [now]. *)
Theorem trigger_time_after_clock (ready : bool) (tracks : list Track)
    (step : Z) (scheduledTime now : Q) (call : Trigger) :
  call ∈ schedule ready tracks step scheduledTime now →
  time call = Qmax scheduledTime (now + (1 # 1000))
  ∧ (now < time call)%Q.
Proof.
  rewrite schedule_calls. destruct ready; [|by intros H%elem_of_nil].
  intros H. apply list_elem_of_fmap in H as (tr & -> & _). cbn [time].
  split; [done|].
  apply (Qlt_le_trans _ (now + (1 # 1000))); [lra|apply Q.le_max_r].
Qed.

Lemma trigger_time_after_clock_witness :
  let call := mkTrigger "kick" (80 / 100) (Qmax 1 (2 + (1 # 1000))) in
  time call = Qmax 1 (2 + (1 # 1000)) ∧ (2 < time call)%Q.
Proof.
  apply (trigger_time_after_clock true
           [mkTrack "kick" 4 80 false false [true; false; false; false]]
           4 1 2).
  vm_compute. apply list_elem_of_here.
Defined.

(** C9.  At a step [s] the calls reaching the sink are, in track order,
    exactly those of the tracks that are not muted, whose pattern is true
    at position [s mod steps], and that are soloed or live in a list
    without any soloed track; each carries the velocity
    [volume / 100]. *)
Theorem triggered_tracks (tracks : list Track) (step : Z)
    (scheduledTime now : Q) :
  0 ≤ step → Forall (λ tr, 0 < steps tr) tracks →
  schedule true tracks step scheduledTime now
  = map (λ tr, mkTrigger (id tr) (volume tr / 100)
                         (Qmax scheduledTime (now + (1 # 1000))))
        (filter (λ tr, muted tr = false
                       ∧ pattern tr !! Z.to_nat (step mod steps tr) = Some true
                       ∧ (Forall (λ t, solo t = false) tracks
                          ∨ solo tr = true))
                tracks).
Proof.
  intros Hs Hpos. rewrite schedule_calls. f_equal.
  apply filter_bool_prop.
  eapply Forall_impl; [exact Hpos|]. intros tr Htr. cbn beta in *.
  unfold shouldPlay. rewrite !andb_true_iff, orb_true_iff, !negb_true_iff.
  rewrite patternAt_mod, no_solo by done. tauto.
Qed.

Lemma triggered_tracks_witness :
  schedule true
    [mkTrack "kick" 4 80 false false [true; false; false; false];
     mkTrack "snare" 2 50 false true [true; true];
     mkTrack "hihat" 2 60 true true [true; true]] 4 1 2
  = [mkTrigger "snare" (50 / 100) (Qmax 1 (2 + (1 # 1000)))].
Proof.
  rewrite triggered_tracks; [reflexivity|lia|].
  repeat constructor.
Defined.

End SchedulerSpec.

(** * Further properties of the pattern generator *)

Module GeneratorExtras.
Import Euclid EuclidFacts.

(** ** Evenness of the base placement *)

Lemma countHits_snoc (arr : list Z) (start len : nat) :
  countHits arr start (S len)
  = countHits arr start len + (if slot_is arr (start + len) 1 then 1 else 0).
Proof.
  unfold countHits, indices. rewrite seq_S, foldl_app. cbn [foldl Nat.add].
  destruct (slot_is arr (start + len) 1); lia.
Qed.

Lemma countHits_base_window (steps hits : Z) (a w : nat) :
  0 < steps → 0 ≤ hits ≤ steps → (a + w ≤ Z.to_nat steps)%nat →
  countHits (basePattern steps hits) a w
  = (Z.of_nat (a + w) * hits - hits) / steps
    - (Z.of_nat a * hits - hits) / steps.
Proof.
  intros Hs Hh. induction w as [|w IH]; intros Hw.
  - rewrite Nat.add_0_r. unfold countHits. simpl. lia.
  - rewrite countHits_snoc, IH by lia.
    unfold slot_is. rewrite basePattern_lookup by lia.
    pose proof (carry_step steps hits (Z.of_nat (a + w) * hits) Hs Hh) as Hc.
    replace (Z.of_nat (a + S w) * hits - hits)
      with (Z.of_nat (a + w) * hits) by lia.
    destruct (_ <? hits); simpl; lia.
Qed.

Lemma floor_add_bounds (x y n : Z) :
  0 < n →
  y / n ≤ (x + y) / n - x / n ≤ (y + n - 1) / n.
Proof.
  intros Hn.
  pose proof (Z.div_mod x n ltac:(lia)) as Hx.
  pose proof (Z.mod_pos_bound x n Hn) as Bx.
  pose proof (Z.div_mod y n ltac:(lia)) as Hy.
  pose proof (Z.mod_pos_bound y n Hn) as By.
  pose proof (Z.div_mod (x + y) n ltac:(lia)) as Hxy.
  pose proof (Z.mod_pos_bound (x + y) n Hn) as Bxy.
  pose proof (Z.div_mod (y + n - 1) n ltac:(lia)) as Hc.
  pose proof (Z.mod_pos_bound (y + n - 1) n Hn) as Bc.
  split; nia.
Qed.

(** X1.  The base placement is balanced: any [w] consecutive steps of it
    hold at least [floor(w * hits / steps)] and at most
    [ceil(w * hits / steps)] hits. *)
Theorem base_window_balanced (steps hits : Z) (a w : nat) :
  1 ≤ steps → 0 ≤ hits ≤ steps → (a + w ≤ Z.to_nat steps)%nat →
  let c := countHits (basePattern steps hits) a w in
  (Z.of_nat w * hits) / steps ≤ c ≤ (Z.of_nat w * hits + steps - 1) / steps.
Proof.
  intros Hs Hh Hw c. subst c. rewrite countHits_base_window by lia.
  pose proof (floor_add_bounds (Z.of_nat a * hits - hits)
                               (Z.of_nat w * hits) steps ltac:(lia)) as Hb.
  replace (Z.of_nat (a + w) * hits - hits)
    with (Z.of_nat a * hits - hits + Z.of_nat w * hits) by lia.
  exact Hb.
Qed.

Lemma base_window_balanced_witness :
  let c := countHits (basePattern 16 5) 3 7 in 2 ≤ c ≤ 3.
Proof. apply (base_window_balanced 16 5 3 7); simpl; lia. Defined.

(** ** Neutral bias, extreme hit counts, rotation round trip *)

Lemma valid_guard (steps hits : Z) :
  1 ≤ steps → 0 ≤ hits ≤ steps →
  (steps <=? 0) || (hits <? 0) || (steps <? hits) = false.
Proof. intros. rewrite !orb_false_iff, Z.leb_gt, !Z.ltb_ge. lia. Qed.

(** X2.  With neutral bias the generator is the base placement read
    through the rotation: entry [j] is a hit exactly when
    [(((j - rotation) mod steps) * hits) mod steps < hits]. *)
Theorem neutral_bias_rotated_placement
    (steps hits : Z) (bias : Q) (rotation : Z) (j : nat) :
  1 ≤ steps → 0 ≤ hits ≤ steps → (bias == 1 # 2)%Q →
  (j < Z.to_nat steps)%nat →
  generateEuclidPattern (mkParams steps hits bias rotation) !! j
  = Some ((((Z.of_nat j - rotation) mod steps) * hits) mod steps <? hits).
Proof.
  intros Hs Hh Hb Hj. unfold generateEuclidPattern.
  rewrite valid_guard by done. apply Qeq_bool_iff in Hb. rewrite Hb.
  unfold toPattern. rewrite list_lookup_fmap.
  pose proof (Z.mod_pos_bound (Z.of_nat j - rotation) steps ltac:(lia)) as Hm.
  assert (E : (if rotation =? 0 then basePattern steps hits
               else rotate (basePattern steps hits) rotation) !! j
              = basePattern steps hits
                  !! Z.to_nat ((Z.of_nat j - rotation) mod steps)).
  { destruct (rotation =? 0) eqn:C.
    - apply Z.eqb_eq in C. subst rotation. f_equal.
      rewrite Z.sub_0_r, Z.mod_small by lia. lia.
    - destruct (rotate_spec (basePattern steps hits) rotation) as [_ Hv].
      rewrite basePattern_length in Hv. rewrite Hv by done.
      by rewrite Z2Nat.id by lia. }
  rewrite E, basePattern_lookup by lia. rewrite Z2Nat.id by lia. cbn.
  by destruct (_ <? hits).
Qed.

Lemma neutral_bias_rotated_placement_witness :
  generateEuclidPattern (mkParams 16 2 (1 # 2) 4) !! 12%nat = Some true.
Proof.
  apply (neutral_bias_rotated_placement 16 2 (1 # 2) 4 12);
    [lia|lia|reflexivity|simpl; lia].
Defined.

Lemma generate_shape (steps hits : Z) (bias : Q) (rotation : Z) :
  1 ≤ steps → 0 ≤ hits ≤ steps →
  length (generateEuclidPattern (mkParams steps hits bias rotation))
  = Z.to_nat steps
  ∧ popcount (generateEuclidPattern (mkParams steps hits bias rotation))
    = hits.
Proof.
  intros Hs Hh. unfold generateEuclidPattern. rewrite valid_guard by done.
  assert (Hb : ∀ arr, ones arr = hits ∧ length arr = Z.to_nat steps →
               ∀ r, ones (if r =? 0 then arr else rotate arr r) = hits
                    ∧ length (if r =? 0 then arr else rotate arr r)
                      = Z.to_nat steps).
  { intros arr [H1 H2] r. destruct (r =? 0); [done|].
    by rewrite rotate_ones, rotate_length. }
  rewrite popcount_ones. unfold toPattern. rewrite length_map.
  apply and_comm, Hb. destruct (Qeq_bool bias (1 # 2)).
  - split; [apply ones_base; lia|apply basePattern_length].
  - destruct (applyHalfBiasTarget_keeps (basePattern steps hits)
                (targetFront (basePattern steps hits) bias)) as [H1 H2].
    unfold applyHalfBias01. rewrite H1, H2.
    split; [apply ones_base; lia|apply basePattern_length].
Qed.

Lemma popcount_none (p : list bool) :
  popcount p = 0 → p = replicate (length p) false.
Proof.
  unfold popcount. induction p as [|b p IH]; [done|].
  rewrite filter_cons. destruct b.
  - rewrite decide_True by done. simpl length. lia.
  - rewrite decide_False by done. intros H. simpl. f_equal. by apply IH.
Qed.

Lemma popcount_le_length (p : list bool) : popcount p ≤ Z.of_nat (length p).
Proof. unfold popcount. pose proof (length_filter (λ b, b = true) p). lia. Qed.

Lemma popcount_all (p : list bool) :
  popcount p = Z.of_nat (length p) → p = replicate (length p) true.
Proof.
  induction p as [|b p IH]; [done|].
  pose proof (popcount_le_length p) as Hle. revert Hle.
  unfold popcount. rewrite filter_cons. destruct b.
  - rewrite decide_True by done. simpl length. intros Hle H. simpl.
    f_equal. apply IH. unfold popcount. lia.
  - rewrite decide_False by done. simpl length. lia.
Qed.

(** X3.  Extreme hit counts ignore bias and rotation: no hits give the
    all-false pattern and [hits = steps] the all-true pattern, of length
    [steps]. *)
Theorem silent_and_full_patterns (steps : Z) (bias : Q) (rotation : Z) :
  1 ≤ steps →
  generateEuclidPattern (mkParams steps 0 bias rotation)
  = replicate (Z.to_nat steps) false
  ∧ generateEuclidPattern (mkParams steps steps bias rotation)
    = replicate (Z.to_nat steps) true.
Proof.
  intros Hs. split.
  - destruct (generate_shape steps 0 bias rotation) as [Hl Hp]; [lia|lia|].
    rewrite <- Hl. by apply popcount_none.
  - destruct (generate_shape steps steps bias rotation) as [Hl Hp]; [lia|lia|].
    rewrite <- Hl. apply popcount_all. rewrite Hp, Hl. lia.
Qed.

Lemma silent_and_full_patterns_witness :
  generateEuclidPattern (mkParams 3 0 (9 # 10) 5) = [false; false; false]
  ∧ generateEuclidPattern (mkParams 3 3 (9 # 10) 5) = [true; true; true].
Proof. apply (silent_and_full_patterns 3 (9 # 10) 5). lia. Defined.

(** X4.  [rotate] moves the content of slot [i] to slot
    [(i + amount) mod n], and rotating back by [- amount] restores the
    array. *)
Theorem rotate_moves_and_undoes (p : list Z) (amount : Z) :
  (∀ i : nat, (i < length p)%nat →
     rotate p amount
       !! Z.to_nat ((Z.of_nat i + amount) mod Z.of_nat (length p))
     = p !! i)
  ∧ rotate (rotate p amount) (- amount) = p.
Proof.
  split.
  - intros i Hi. set (n := Z.of_nat (length p)).
    assert (Hn : 0 < n) by (unfold n; lia).
    pose proof (Z.mod_pos_bound (Z.of_nat i + amount) n Hn) as Hb.
    destruct (rotate_spec p amount) as [_ Hv]. fold n in Hv.
    rewrite Hv by (unfold n in *; lia). f_equal.
    rewrite Z2Nat.id by lia. rewrite Zminus_mod_idemp_l.
    replace (Z.of_nat i + amount - amount) with (Z.of_nat i) by lia.
    rewrite Z.mod_small by (unfold n; lia). lia.
  - rewrite rotate_rotate. replace (amount + - amount) with 0 by lia.
    unfold rotate. destruct (_ <=? 0) eqn:C; [done|].
    apply Z.leb_gt in C. rewrite Z.mod_0_l by lia.
    by rewrite Z.rem_0_l by lia.
Qed.

Lemma rotate_moves_and_undoes_witness :
  rotate [1; 0; 0; 1; 0] (-7) !! 1%nat = Some 1
  ∧ rotate (rotate [1; 0; 0; 1; 0] (-7)) 7 = [1; 0; 0; 1; 0].
Proof.
  destruct (rotate_moves_and_undoes [1; 0; 0; 1; 0] (-7)) as [Hv Hr].
  split; [apply (Hv 3%nat); simpl; lia|exact Hr].
Defined.

Lemma rotate_zero (p : list Z) : rotate p 0 = p.
Proof.
  unfold rotate. destruct (_ <=? 0) eqn:C; [done|]. apply Z.leb_gt in C.
  by rewrite Z.rem_0_l by lia.
Qed.

Lemma rotate_mod (p : list Z) (amount : Z) :
  rotate p amount = rotate p (amount mod Z.of_nat (length p)).
Proof.
  pose proof (rotate_rotate p amount 0) as H.
  rewrite Z.add_0_r in H. rewrite <- H. by rewrite rotate_zero.
Qed.

(** X25.  The generator depends on the rotation only modulo [steps]:
    adding any multiple of [steps] to the rotation gives the same
    pattern. *)
Theorem rotation_is_periodic (steps hits : Z) (bias : Q) (rotation k : Z) :
  1 ≤ steps → 0 ≤ hits ≤ steps →
  generateEuclidPattern (mkParams steps hits bias (rotation + k * steps))
  = generateEuclidPattern (mkParams steps hits bias rotation).
Proof.
  intros Hs Hh. unfold generateEuclidPattern. rewrite valid_guard by done.
  set (biased := if Qeq_bool bias (1 # 2) then basePattern steps hits
                 else applyHalfBias01 (basePattern steps hits) bias).
  assert (Hl : Z.of_nat (length biased) = steps).
  { unfold biased. destruct (Qeq_bool bias (1 # 2)).
    - rewrite basePattern_length. lia.
    - destruct (applyHalfBiasTarget_keeps (basePattern steps hits)
                  (targetFront (basePattern steps hits) bias)) as [_ H].
      unfold applyHalfBias01. rewrite H, basePattern_length. lia. }
  assert (R : ∀ r, (if r =? 0 then biased else rotate biased r)
                   = rotate biased (r mod steps)).
  { intros r. rewrite <- Hl, <- rotate_mod.
    destruct (Z.eqb_spec r 0) as [->|]; [|done]. by rewrite rotate_zero. }
  by rewrite !R, Z_mod_plus_full.
Qed.

Lemma rotation_is_periodic_witness :
  generateEuclidPattern (mkParams 8 3 (7 # 10) (2 + -3 * 8))
  = generateEuclidPattern (mkParams 8 3 (7 # 10) 2).
Proof. apply (rotation_is_periodic 8 3 (7 # 10) 2 (-3)); lia. Defined.

(** ** The redistribution reaches its target *)

Lemma countHits_slice (arr : list Z) (start len : nat) :
  countHits arr start len = ones (take len (drop start arr)).
Proof.
  induction len as [|len IH]; [done|].
  rewrite countHits_snoc, IH. unfold slot_is.
  rewrite <- (lookup_drop arr start len).
  destruct (drop start arr !! len) as [x|] eqn:E.
  - rewrite (take_S_r _ _ x E), ones_app. simpl. lia.
  - apply lookup_ge_None in E. rewrite !take_ge by lia. lia.
Qed.

Lemma ones_split (arr : list Z) (k : nat) :
  ones arr = ones (take k arr) + ones (drop k arr).
Proof. by rewrite <- ones_app, take_drop. Qed.

Lemma ranked_range (arr : list Z) (start len i : nat) :
  i ∈ rankedHits arr start len ∨ i ∈ rankedEmpties arr start len →
  (start ≤ i < start + len)%nat.
Proof.
  unfold rankedHits, rankedEmpties. rewrite !foldl_collect. cbn [app].
  intros [H|H];
    apply list_elem_of_fmap in H as (r & -> & H);
    rewrite js_sort_perm in H;
    apply list_elem_of_fmap in H as (j & -> & H); cbn [idx];
    apply list_elem_of_In, List.filter_In in H as [H _];
    apply in_seq in H; lia.
Qed.

Lemma rankedHits_length (arr : list Z) (start len : nat) :
  Z.of_nat (length (rankedHits arr start len)) = countHits arr start len.
Proof.
  unfold rankedHits, countHits. rewrite foldl_collect, foldl_count. cbn [app].
  by rewrite length_map, js_sort_perm, length_map.
Qed.

Lemma filter_complement {A} (P0 P1 : A → bool) (xs : list A) :
  (∀ x, x ∈ xs → P0 x = negb (P1 x)) →
  (length (List.filter P0 xs) + length (List.filter P1 xs))%nat = length xs.
Proof.
  induction xs as [|x xs IH]; intros H; [done|]. simpl.
  rewrite (H x) by left. specialize (IH (λ y Hy, H y (list_elem_of_further _ _ _ Hy))).
  destruct (P1 x); simpl; lia.
Qed.

Lemma rankedEmpties_length (arr : list Z) (start len : nat) :
  Legacy.all01 arr → (start + len ≤ length arr)%nat →
  Z.of_nat (length (rankedEmpties arr start len))
  = Z.of_nat len - countHits arr start len.
Proof.
  intros H01 Hr. unfold rankedEmpties, countHits.
  rewrite foldl_collect, foldl_count. cbn [app].
  rewrite length_map, js_sort_perm, length_map.
  pose proof (filter_complement
                (λ i, slot_is arr (start + i) 0)
                (λ i, slot_is arr (start + i) 1) (indices len)) as Hc.
  unfold indices in *. rewrite length_seq in Hc.
  rewrite <- Hc at 2; [lia|].
  intros i Hi. apply elem_of_seq in Hi. unfold slot_is.
  destruct (lookup_lt_is_Some_2 arr (start + i) ltac:(lia)) as [v Hv].
  rewrite Hv. unfold Legacy.all01 in H01.
  rewrite Forall_lookup in H01. by destruct (H01 _ _ Hv) as [-> | ->].
Qed.

Lemma all01_insert (l : list Z) (i : nat) (v : Z) :
  v = 0 ∨ v = 1 → Legacy.all01 l → Legacy.all01 (<[i := v]> l).
Proof.
  unfold Legacy.all01. intros Hv H. destruct (decide (i < length l)%nat).
  - by apply Forall_insert.
  - by rewrite list_insert_ge by lia.
Qed.

(** One move across the boundary [half]: the side that gives loses one
    hit, the side that takes gains one. *)
Lemma move_across (out : list Z) (half src dst : nat) :
  out !! src = Some 1 → out !! dst = Some 0 →
  let out' := <[dst := 1]> (<[src := 0]> out) in
  ((src < half ≤ dst)%nat →
     ones (take half out') = ones (take half out) - 1
     ∧ ones (drop half out') = ones (drop half out) + 1)
  ∧ ((dst < half ≤ src)%nat →
     ones (take half out') = ones (take half out) + 1
     ∧ ones (drop half out') = ones (drop half out) - 1).
Proof.
  intros Hs Hd out'.
  destruct (move_once out src dst Hs Hd) as [Hones _]. fold out' in Hones.
  rewrite (ones_split out' half), (ones_split out half) in Hones.
  split; intros Hr.
  - assert (E : ones (take half out') = ones (take half out) - 1).
    { unfold out'. rewrite take_insert_ge, take_insert_lt by lia.
      rewrite (ones_insert _ src 1 0); [simpl; lia|].
      rewrite lookup_take_lt by lia. done. }
    lia.
  - assert (E : ones (take half out') = ones (take half out) + 1).
    { unfold out'. rewrite take_insert_lt, take_insert_ge by lia.
      rewrite (ones_insert _ dst 0 1); [simpl; lia|].
      rewrite lookup_take_lt by lia. done. }
    lia.
Qed.

Lemma moveLoop_to_back (moves : nat) (out : list Z) (half : nat) :
  Legacy.all01 out → (half ≤ length out)%nat →
  Z.of_nat moves ≤ ones (take half out) →
  ones (drop half out) + Z.of_nat moves ≤ Z.of_nat (length out - half) →
  ones (take half (moveLoop moves out 0 half half (length out - half)))
  = ones (take half out) - Z.of_nat moves.
Proof.
  revert out; induction moves as [|m IH]; intros out H01 Hh Hf Hb.
  { simpl. lia. }
  cbn [moveLoop].
  pose proof (rankedHits_length out 0 half) as Lh.
  pose proof (rankedEmpties_length out half (length out - half) H01
                ltac:(lia)) as Le.
  rewrite countHits_slice in Lh, Le. rewrite drop_0 in Lh.
  rewrite take_ge in Le by (rewrite length_drop; lia).
  destruct (rankedHits out 0 half) as [|src hs] eqn:Eh;
    [simpl in Lh; lia|].
  destruct (rankedEmpties out half (length out - half)) as [|dst es] eqn:Ee;
    [simpl in Le; lia|].
  assert (Hs : out !! src = Some 1).
  { apply (rankedHits_slot out 0 half). rewrite Eh. left. }
  assert (Hd : out !! dst = Some 0).
  { apply (rankedEmpties_slot out half (length out - half)). rewrite Ee. left. }
  assert (Rs : (0 ≤ src < 0 + half)%nat).
  { apply (ranked_range out 0 half). left. rewrite Eh. left. }
  assert (Rd : (half ≤ dst < half + (length out - half))%nat).
  { apply (ranked_range out half (length out - half)). right. rewrite Ee. left. }
  destruct (move_across out half src dst Hs Hd) as [[M1 M2] _]; [lia|].
  set (out' := <[dst := 1]> (<[src := 0]> out)) in *.
  assert (Hl : length out' = length out)
    by (unfold out'; by rewrite !length_insert).
  rewrite <- Hl. rewrite IH.
  - lia.
  - unfold out'. apply all01_insert; [by right|]. apply all01_insert; [by left|done].
  - lia.
  - lia.
  - rewrite Hl. lia.
Qed.

Lemma moveLoop_to_front (moves : nat) (out : list Z) (half : nat) :
  Legacy.all01 out → (half ≤ length out)%nat →
  Z.of_nat moves ≤ ones (drop half out) →
  ones (take half out) + Z.of_nat moves ≤ Z.of_nat half →
  ones (take half (moveLoop moves out half (length out - half) 0 half))
  = ones (take half out) + Z.of_nat moves.
Proof.
  revert out; induction moves as [|m IH]; intros out H01 Hh Hb Hf.
  { simpl. lia. }
  cbn [moveLoop].
  pose proof (rankedHits_length out half (length out - half)) as Lh.
  pose proof (rankedEmpties_length out 0 half H01 ltac:(lia)) as Le.
  rewrite countHits_slice in Lh, Le. rewrite drop_0 in Le.
  rewrite take_ge in Lh by (rewrite length_drop; lia).
  destruct (rankedHits out half (length out - half)) as [|src hs] eqn:Eh;
    [simpl in Lh; lia|].
  destruct (rankedEmpties out 0 half) as [|dst es] eqn:Ee;
    [simpl in Le; lia|].
  assert (Hs : out !! src = Some 1).
  { apply (rankedHits_slot out half (length out - half)). rewrite Eh. left. }
  assert (Hd : out !! dst = Some 0).
  { apply (rankedEmpties_slot out 0 half). rewrite Ee. left. }
  assert (Rs : (half ≤ src < half + (length out - half))%nat).
  { apply (ranked_range out half (length out - half)). left. rewrite Eh. left. }
  assert (Rd : (0 ≤ dst < 0 + half)%nat).
  { apply (ranked_range out 0 half). right. rewrite Ee. left. }
  destruct (move_across out half src dst Hs Hd) as [_ [M1 M2]]; [lia|].
  set (out' := <[dst := 1]> (<[src := 0]> out)) in *.
  assert (Hl : length out' = length out)
    by (unfold out'; by rewrite !length_insert).
  rewrite <- Hl. rewrite IH.
  - lia.
  - unfold out'. apply all01_insert; [by right|]. apply all01_insert; [by left|done].
  - lia.
  - lia.
  - lia.
Qed.

Lemma applyHalfBiasTarget_front (arr : list Z) (target : Z) :
  Legacy.all01 arr →
  let n := length arr in
  let half := (n / 2)%nat in
  Z.max 0 (ones arr - Z.of_nat (n - half)) ≤ target
    ≤ Z.min (Z.of_nat half) (ones arr) →
  countHits (applyHalfBiasTarget arr target) 0 half = target.
Proof.
  intros H01 n half Ht. unfold applyHalfBiasTarget. fold n half.
  assert (Hhalf : (half ≤ n)%nat) by (apply Nat.Div0.div_le_upper_bound; lia).
  pose proof (ones_split arr half) as Hsplit.
  rewrite (countHits_slice arr 0 half), drop_0.
  destruct (_ =? target) eqn:C.
  { apply Z.eqb_eq in C. by rewrite countHits_slice, drop_0. }
  apply Z.eqb_neq in C. rewrite countHits_slice, drop_0.
  destruct (target <? ones (take half arr)) eqn:D.
  - apply Z.ltb_lt in D. rewrite Z.abs_eq by lia.
    unfold n in *. rewrite moveLoop_to_back; try done; lia.
  - apply Z.ltb_ge in D.
    rewrite Z.abs_neq by lia.
    unfold n in *. rewrite moveLoop_to_front; try done; lia.
Qed.

Lemma applyHalfBiasTarget_halves (arr : list Z) (target : Z) :
  Legacy.all01 arr →
  let n := length arr in
  let half := (n / 2)%nat in
  Z.max 0 (ones arr - Z.of_nat (n - half)) ≤ target
    ≤ Z.min (Z.of_nat half) (ones arr) →
  countHits (applyHalfBiasTarget arr target) 0 half = target
  ∧ countHits (applyHalfBiasTarget arr target) half (n - half)
    = ones arr - target.
Proof.
  intros H01 n half Ht.
  pose proof (applyHalfBiasTarget_front arr target H01 Ht) as Hf.
  fold n half in Hf. split; [done|].
  destruct (applyHalfBiasTarget_keeps arr target) as [Ho Hl].
  rewrite countHits_slice in Hf |- *. rewrite drop_0 in Hf.
  rewrite take_ge by (rewrite length_drop, Hl; fold n; lia).
  pose proof (ones_split (applyHalfBiasTarget arr target) half). lia.
Qed.

Lemma applyHalfBias01_halves (arr : list Z) (bias : Q) :
  Legacy.all01 arr →
  let n := length arr in
  let half := (n / 2)%nat in
  let target := targetFront arr bias in
  Z.max 0 (ones arr - Z.of_nat (n - half)) ≤ target
    ≤ Z.min (Z.of_nat half) (ones arr) →
  countHits (applyHalfBias01 arr bias) 0 half = target
  ∧ countHits (applyHalfBias01 arr bias) half (n - half) = ones arr - target.
Proof.
  intros H01 n half target Ht. unfold applyHalfBias01. fold target.
  by apply applyHalfBiasTarget_halves.
Qed.

(** X5.  On an array of zeros and ones the minimal-move redistribution,
    run towards any target number of front-half hits (whatever value the
    rounding of [hits * (1 - bias)] produced), leaves exactly that many
    hits in the front half and the remaining ones in the back half,
    whenever the target fits in the front half and the back half can hold
    the rest. *)
Theorem bias_reaches_target (arr : list Z) (target : Z) :
  Legacy.all01 arr →
  let n := length arr in
  let half := (n / 2)%nat in
  Z.max 0 (ones arr - Z.of_nat (n - half)) ≤ target
    ≤ Z.min (Z.of_nat half) (ones arr) →
  countHits (applyHalfBiasTarget arr target) 0 half = target
  ∧ countHits (applyHalfBiasTarget arr target) half (n - half)
    = ones arr - target.
Proof. apply applyHalfBiasTarget_halves. Qed.

Lemma bias_reaches_target_witness :
  countHits (applyHalfBiasTarget [1; 0; 0; 1; 0; 0; 1; 0] 1) 0 4 = 1
  ∧ countHits (applyHalfBiasTarget [1; 0; 0; 1; 0; 0; 1; 0] 1) 4 4 = 2.
Proof.
  apply (bias_reaches_target [1; 0; 0; 1; 0; 0; 1; 0] 1).
  - unfold Legacy.all01. repeat (apply Forall_cons; split; [lia|]).
    apply Forall_nil_2.
  - vm_compute. split; discriminate.
Defined.

(** ** Extreme bias *)

Lemma js_round_int (z : Z) (x : Q) : (x == inject_Z z)%Q → js_round x = z.
Proof.
  intros Hx. unfold js_round.
  rewrite (Qfloor_comp (x + (1 # 2)) (inject_Z z + (1 # 2)))
    by (by rewrite Hx).
  set (y := (inject_Z z + (1 # 2))%Q).
  pose proof (Qfloor_le y) as H1. pose proof (Qlt_floor y) as H2.
  rewrite inject_Z_plus in H2. change (inject_Z 1) with 1%Q in H2.
  assert (A : (inject_Z (Qfloor y) < inject_Z (z + 1))%Q).
  { rewrite inject_Z_plus. change (inject_Z 1) with 1%Q. unfold y at 2 in H1. lra. }
  assert (B : (inject_Z z < inject_Z (Qfloor y + 1))%Q).
  { rewrite inject_Z_plus. change (inject_Z 1) with 1%Q. unfold y at 1 in H2. lra. }
  rewrite <- Zlt_Qlt in A, B. lia.
Qed.

Lemma basePattern_all01 (steps hits : Z) : Legacy.all01 (basePattern steps hits).
Proof.
  unfold Legacy.all01, basePattern. apply Forall_fmap, Forall_forall.
  intros i _. cbn. destruct (_ <? hits); lia.
Qed.

Lemma ones_zero_no_hit (l : list Z) (i : nat) : ones l = 0 → l !! i ≠ Some 1.
Proof.
  revert i; induction l as [|x l IH]; intros i H; [done|].
  pose proof (ones_nonneg l). cbn [ones] in H.
  destruct i as [|i]; cbn.
  - intros [= ->]. simpl in H. lia.
  - apply IH. destruct (x =? 1); lia.
Qed.

Lemma toPattern_hit (l : list Z) (i : nat) :
  toPattern l !! i = Some true → l !! i = Some 1.
Proof.
  unfold toPattern. rewrite list_lookup_fmap.
  destruct (l !! i) as [v|]; [|done]. cbn. intros [= H].
  apply Z.eqb_eq in H. by subst.
Qed.

(** X6.  Bias 0 gathers every hit in the front half when they fit there,
    and bias 1 gathers every hit in the back half when they fit there
    (no rotation). *)
Theorem extreme_bias_fills_one_half (steps hits : Z) (i : nat) :
  1 ≤ steps → 0 ≤ hits →
  let half := (Z.to_nat steps / 2)%nat in
  (hits ≤ Z.of_nat half → (half ≤ i)%nat →
     generateEuclidPattern (mkParams steps hits 0 0) !! i ≠ Some true)
  ∧ (hits ≤ steps - Z.of_nat half → (i < half)%nat →
     generateEuclidPattern (mkParams steps hits 1 0) !! i ≠ Some true).
Proof.
  intros Hs Hh half.
  assert (Hhalf : (half ≤ Z.to_nat steps)%nat)
    by (apply Nat.Div0.div_le_upper_bound; lia).
  set (base := basePattern steps hits).
  assert (Hn : length base = Z.to_nat steps) by apply basePattern_length.
  split; intros Hfit Hi.
  - unfold generateEuclidPattern. rewrite valid_guard by lia.
    change (Qeq_bool 0 (1 # 2)) with false. cbn [Z.eqb]. fold base.
    assert (Ho : ones base = hits) by (apply ones_base; lia).
    assert (Ht : targetFront base 0 = hits).
    { unfold targetFront. rewrite countHits_ones, Ho.
      apply js_round_int. ring. }
    destruct (applyHalfBias01_halves base 0 (basePattern_all01 steps hits))
      as [_ Hb].
    { rewrite Ht, Ho, Hn. fold half. lia. }
    rewrite Ht, Ho, Hn in Hb. fold half in Hb.
    rewrite countHits_slice in Hb.
    intros Hp. apply toPattern_hit in Hp.
    assert (Hd : drop half (applyHalfBias01 base 0) !! (i - half)%nat = Some 1).
    { rewrite lookup_drop. rewrite <- Hp. f_equal. lia. }
    rewrite <- (take_ge (drop half (applyHalfBias01 base 0))
                        (Z.to_nat steps - half)) in Hd.
    + revert Hd. apply ones_zero_no_hit. lia.
    + rewrite length_drop.
      destruct (applyHalfBiasTarget_keeps base (targetFront base 0)) as [_ Hl].
      unfold applyHalfBias01. rewrite Hl, Hn. lia.
  - unfold generateEuclidPattern. rewrite valid_guard by lia.
    change (Qeq_bool 1 (1 # 2)) with false. cbn [Z.eqb]. fold base.
    assert (Ho : ones base = hits) by (apply ones_base; lia).
    assert (Ht : targetFront base 1 = 0).
    { unfold targetFront. apply js_round_int. ring. }
    destruct (applyHalfBias01_halves base 1 (basePattern_all01 steps hits))
      as [Hf _].
    { rewrite Ht, Ho, Hn. fold half. lia. }
    rewrite Ht, Hn in Hf. fold half in Hf.
    rewrite countHits_slice, drop_0 in Hf.
    intros Hp. apply toPattern_hit in Hp.
    assert (Hd : take half (applyHalfBias01 base 1) !! i = Some 1)
      by (by rewrite lookup_take_lt).
    revert Hd. by apply ones_zero_no_hit.
Qed.

Lemma extreme_bias_fills_one_half_witness :
  generateEuclidPattern (mkParams 8 3 0 0) !! 6%nat ≠ Some true
  ∧ generateEuclidPattern (mkParams 8 3 1 0) !! 0%nat ≠ Some true.
Proof.
  split.
  - apply (proj1 (extreme_bias_fills_one_half 8 3 6 ltac:(lia) ltac:(lia)));
      simpl; lia.
  - apply (proj2 (extreme_bias_fills_one_half 8 3 0 ltac:(lia) ltac:(lia)));
      simpl; lia.
Defined.

(** ** The ranking rules *)

Section SortSorted.
Context {A : Type} (cmp : A → A → Z).
Let le (a b : A) : Prop := cmp a b ≤ 0.
Hypothesis le_total : ∀ a b, le a b ∨ le b a.
Hypothesis le_trans : ∀ a b c, le a b → le b c → le a c.

Lemma sort_insert_sorted (x : A) (l : list A) :
  StronglySorted le l → StronglySorted le (sort_insert cmp x l).
Proof using le_total le_trans.
  induction 1 as [|y l Hs IH Hy]; simpl.
  - repeat constructor.
  - destruct (cmp y x <=? 0) eqn:C.
    + apply Z.leb_le in C. constructor; [done|].
      apply Forall_forall. intros z Hz.
      rewrite sort_insert_perm in Hz. apply elem_of_cons in Hz as [->|Hz].
      * exact C.
      * rewrite Forall_forall in Hy. by apply Hy.
    + apply Z.leb_gt in C.
      assert (Hxy : le x y) by (destruct (le_total x y) as [H|H]; [done|unfold le in H; lia]).
      constructor; [by constructor|].
      constructor; [done|].
      eapply Forall_impl; [exact Hy|]. intros z Hz. by eapply le_trans.
Qed.

Lemma js_sort_sorted (l : list A) : StronglySorted le (js_sort cmp l).
Proof using le_total le_trans.
  unfold js_sort.
  enough (G : ∀ acc, StronglySorted le acc →
              StronglySorted le (foldl (λ acc x, sort_insert cmp x acc) acc l))
    by (apply G; constructor).
  induction l as [|x l IH]; intros acc Hacc; simpl; [done|].
  apply IH. by apply sort_insert_sorted.
Qed.

(** The first element of a sorted array goes before every element. *)
Lemma js_sort_head (l : list A) (x : A) (rest : list A) (y : A) :
  js_sort cmp l = x :: rest → y ∈ l → x = y ∨ le x y.
Proof using le_total le_trans.
  intros E Hy. pose proof (js_sort_sorted l) as Hs. rewrite E in Hs.
  rewrite <- (js_sort_perm cmp l), E in Hy.
  apply elem_of_cons in Hy as [->|Hy]; [by left|right].
  apply StronglySorted_inv in Hs as [_ Hall].
  rewrite Forall_forall in Hall. by apply Hall.
Qed.
End SortSorted.

(** X7.  The hit taken from the giving half is the most crowded one: it
    holds a hit, lies in the half, and no hit of the half has a smaller
    distance to its nearest other hit, nor the same distance at a lower
    index.  The slot filled in the taking half is the most open one: it
    holds [0], and no empty slot of the half has a larger distance to the
    nearest hit, nor the same distance at a lower index. *)
Theorem ranking_rules (arr : list Z) (start len first : nat) (rest : list nat) :
  (rankedHits arr start len = first :: rest →
     arr !! first = Some 1 ∧ (start ≤ first < start + len)%nat
     ∧ ∀ j, (start ≤ j < start + len)%nat → arr !! j = Some 1 →
         let score i := distanceToNearestHit arr i start len true in
         score first < score j ∨ (score first = score j ∧ (first ≤ j)%nat))
  ∧ (rankedEmpties arr start len = first :: rest →
     arr !! first = Some 0 ∧ (start ≤ first < start + len)%nat
     ∧ ∀ j, (start ≤ j < start + len)%nat → arr !! j = Some 0 →
         let score i := distanceToNearestHit arr i start len false in
         score j < score first ∨ (score first = score j ∧ (first ≤ j)%nat)).
Proof.
  split; intros E.
  - split; [apply (rankedHits_slot arr start len); rewrite E; left|].
    split; [apply (ranked_range arr start len); left; rewrite E; left|].
    intros j Hj Hv score.
    unfold rankedHits in E. rewrite foldl_collect in E. cbn [app] in E.
    set (f := λ i, mkRanked (start + i)
                     (distanceToNearestHit arr (start + i) start len true)) in E.
    set (cmp := λ a b : Ranked, if negb (Euclid.score a =? Euclid.score b)
                                then Euclid.score a - Euclid.score b
                                else Z.of_nat (idx a) - Z.of_nat (idx b)) in E.
    destruct (js_sort cmp _) as [|r0 rs] eqn:Es; [done|].
    injection E as E0 _.
    assert (Hr0 : r0 ∈ map f (List.filter (λ i, slot_is arr (start + i) 1)
                                          (indices len))).
    { rewrite <- (js_sort_perm cmp), Es. left. }
    apply list_elem_of_fmap in Hr0 as (i0 & -> & _). cbn [idx f] in E0.
    assert (Hin : f (j - start)%nat
                  ∈ map f (List.filter (λ i, slot_is arr (start + i) 1)
                                       (indices len))).
    { apply list_elem_of_fmap_2, list_elem_of_In, List.filter_In. split.
      - apply in_seq. lia.
      - unfold slot_is. replace (start + (j - start))%nat with j by lia.
        by rewrite Hv. }
    eapply (js_sort_head cmp) in Hin; [| | |exact Es].
    + unfold score. subst first.
      destruct Hin as [Heq|Hle].
      * right. apply (f_equal idx) in Heq. cbn in Heq.
        replace j with (start + i0)%nat by lia. lia.
      * unfold cmp, f in Hle. cbn [idx Euclid.score] in Hle.
        replace (start + (j - start))%nat with j in Hle by lia.
        revert Hle.
        generalize (distanceToNearestHit arr (start + i0) start len true).
        generalize (distanceToNearestHit arr j start len true).
        intros dj d0 Hle.
        destruct (Z.eqb_spec d0 dj); cbn [negb] in Hle; lia.
    + intros a b. unfold cmp. cbn beta.
      destruct (Z.eqb_spec (Euclid.score a) (Euclid.score b)),
               (Z.eqb_spec (Euclid.score b) (Euclid.score a));
        cbn [negb]; lia.
    + intros a b c. unfold cmp. cbn beta.
      destruct (Z.eqb_spec (Euclid.score a) (Euclid.score b)),
               (Z.eqb_spec (Euclid.score b) (Euclid.score c)),
               (Z.eqb_spec (Euclid.score a) (Euclid.score c));
        cbn [negb]; lia.
  - split; [apply (rankedEmpties_slot arr start len); rewrite E; left|].
    split; [apply (ranked_range arr start len); right; rewrite E; left|].
    intros j Hj Hv score.
    unfold rankedEmpties in E. rewrite foldl_collect in E. cbn [app] in E.
    set (f := λ i, mkRanked (start + i)
                     (distanceToNearestHit arr (start + i) start len false)) in E.
    set (cmp := λ a b : Ranked, if negb (Euclid.score a =? Euclid.score b)
                                then Euclid.score b - Euclid.score a
                                else Z.of_nat (idx a) - Z.of_nat (idx b)) in E.
    destruct (js_sort cmp _) as [|r0 rs] eqn:Es; [done|].
    injection E as E0 _.
    assert (Hr0 : r0 ∈ map f (List.filter (λ i, slot_is arr (start + i) 0)
                                          (indices len))).
    { rewrite <- (js_sort_perm cmp), Es. left. }
    apply list_elem_of_fmap in Hr0 as (i0 & -> & _). cbn [idx f] in E0.
    assert (Hin : f (j - start)%nat
                  ∈ map f (List.filter (λ i, slot_is arr (start + i) 0)
                                       (indices len))).
    { apply list_elem_of_fmap_2, list_elem_of_In, List.filter_In. split.
      - apply in_seq. lia.
      - unfold slot_is. replace (start + (j - start))%nat with j by lia.
        by rewrite Hv. }
    eapply (js_sort_head cmp) in Hin; [| | |exact Es].
    + unfold score. subst first.
      destruct Hin as [Heq|Hle].
      * right. apply (f_equal idx) in Heq. cbn in Heq.
        replace j with (start + i0)%nat by lia. lia.
      * unfold cmp, f in Hle. cbn [idx Euclid.score] in Hle.
        replace (start + (j - start))%nat with j in Hle by lia.
        revert Hle.
        generalize (distanceToNearestHit arr (start + i0) start len false).
        generalize (distanceToNearestHit arr j start len false).
        intros dj d0 Hle.
        destruct (Z.eqb_spec d0 dj); cbn [negb] in Hle; lia.
    + intros a b. unfold cmp. cbn beta.
      destruct (Z.eqb_spec (Euclid.score a) (Euclid.score b)),
               (Z.eqb_spec (Euclid.score b) (Euclid.score a));
        cbn [negb]; lia.
    + intros a b c. unfold cmp. cbn beta.
      destruct (Z.eqb_spec (Euclid.score a) (Euclid.score b)),
               (Z.eqb_spec (Euclid.score b) (Euclid.score c)),
               (Z.eqb_spec (Euclid.score a) (Euclid.score c));
        cbn [negb]; lia.
Qed.

Lemma ranking_rules_witness :
  [1; 0; 0; 1; 0; 0; 1; 0] !! 0%nat = Some 1
  ∧ [1; 0; 0; 1; 0; 0; 1; 0] !! 4%nat = Some 0.
Proof.
  destruct (ranking_rules [1; 0; 0; 1; 0; 0; 1; 0] 0 4 0 [3%nat]) as [H _].
  destruct (ranking_rules [1; 0; 0; 1; 0; 0; 1; 0] 4 4 4 [5%nat; 7%nat])
    as [_ H'].
  split; [apply (H eq_refl)|apply (H' eq_refl)].
Defined.

(** ** The score *)

Lemma nearest_loop (arr : list Z) (index start : nat) (excludeSelf : bool)
    (k : nat) :
  match
    foldl (λ (min : option Z) i,
             let idx := (start + i)%nat in
             if slot_is arr idx 1 then
               if excludeSelf && (idx =? index)%nat then min
               else
                 let dist := Z.abs (Z.of_nat idx - Z.of_nat index) in
                 match min with
                 | None => Some dist
                 | Some m => if dist <? m then Some dist else min
                 end
             else min)
          None (indices k)
  with
  | None => ∀ j, ¬ counted arr index start k excludeSelf j
  | Some d =>
      (∃ j, counted arr index start k excludeSelf j
            ∧ d = Z.abs (Z.of_nat j - Z.of_nat index))
      ∧ ∀ j, counted arr index start k excludeSelf j →
             d ≤ Z.abs (Z.of_nat j - Z.of_nat index)
  end.
Proof.
  unfold indices. induction k as [|k IH].
  { simpl. intros j [Hj _]. lia. }
  rewrite seq_S, foldl_app. cbn [foldl Nat.add].
  set (prev := foldl _ None (seq 0 k)) in *.
  assert (Hstep : ∀ j, counted arr index start (S k) excludeSelf j
                       ↔ counted arr index start k excludeSelf j
                         ∨ (j = (start + k)%nat ∧ arr !! j = Some 1
                            ∧ (excludeSelf = true → j ≠ index))).
  { unfold counted. intros j. split.
    - intros (Hr & Hv & He).
      destruct (decide (j = (start + k)%nat)); [right|left]; repeat split;
        try done; lia.
    - intros [(Hr & Hv & He)|(-> & Hv & He)]; repeat split; try done; lia. }
  destruct (slot_is arr (start + k) 1) eqn:Sl.
  2:{ assert (Hno : arr !! (start + k)%nat ≠ Some 1).
      { unfold slot_is in Sl. destruct (arr !! (start + k)%nat); [|done].
        intros [= ->]. done. }
      destruct prev as [d|].
      - destruct IH as [(j & Hc & Hd) Hmin]. split.
        + exists j. split; [apply Hstep; by left|done].
        + intros j' Hj'. apply Hstep in Hj' as [Hj'|(-> & Hv & _)];
            [by apply Hmin|done].
      - intros j Hj. apply Hstep in Hj as [Hj|(-> & Hv & _)];
          [by apply (IH j)|done]. }
  assert (Hhit : arr !! (start + k)%nat = Some 1).
  { unfold slot_is in Sl. destruct (arr !! (start + k)%nat); [|done].
    apply Z.eqb_eq in Sl. by subst. }
  destruct (excludeSelf && (start + k =? index)%nat) eqn:Ex.
  - apply andb_true_iff in Ex as [-> Ex]. apply Nat.eqb_eq in Ex.
    destruct prev as [d|].
    + destruct IH as [(j & Hc & Hd) Hmin]. split.
      * exists j. split; [apply Hstep; by left|done].
      * intros j' Hj'. apply Hstep in Hj' as [Hj'|(-> & _ & He)];
          [by apply Hmin|]. by destruct He.
    + intros j Hj. apply Hstep in Hj as [Hj|(-> & _ & He)];
        [by apply (IH j)|]. by destruct He.
  - assert (Hnew : counted arr index start (S k) excludeSelf (start + k)).
    { apply Hstep. right. repeat split; [done|].
      intros He Hidx. rewrite He, Hidx, Nat.eqb_refl in Ex. done. }
    destruct prev as [d|].
    + destruct IH as [(j & Hc & Hd) Hmin].
      destruct (Z.ltb_spec (Z.abs (Z.of_nat (start + k) - Z.of_nat index)) d).
      * split; [by exists (start + k)%nat|].
        intros j' Hj'. apply Hstep in Hj' as [Hj'|(-> & _)]; [|lia].
        specialize (Hmin j' Hj'). lia.
      * split; [exists j; split; [apply Hstep; by left|done]|].
        intros j' Hj'. apply Hstep in Hj' as [Hj'|(-> & _)]; [|lia].
        by apply Hmin.
    + split; [by exists (start + k)%nat|].
      intros j' Hj'. apply Hstep in Hj' as [Hj'|(-> & _)]; [|lia].
      by destruct (IH j').
Qed.

(** X8.  [distanceToNearestHit] is the smallest distance from [index] to
    a hit of the range (other than [index] itself when [excludeSelf]),
    and the length of the range when there is no such hit. *)
Theorem distance_is_minimum (arr : list Z) (index start len : nat)
    (excludeSelf : bool) :
  let d := distanceToNearestHit arr index start len excludeSelf in
  ((∀ j, ¬ counted arr index start len excludeSelf j) → d = Z.of_nat len)
  ∧ ((∃ j, counted arr index start len excludeSelf j) →
       ∃ j, counted arr index start len excludeSelf j
            ∧ d = Z.abs (Z.of_nat j - Z.of_nat index))
  ∧ ∀ j, counted arr index start len excludeSelf j →
         d ≤ Z.abs (Z.of_nat j - Z.of_nat index).
Proof.
  intros d. subst d. unfold distanceToNearestHit.
  pose proof (nearest_loop arr index start excludeSelf len) as H.
  destruct (foldl _ None (indices len)) as [m|].
  - destruct H as [(j & Hc & Hd) Hmin]. split; [|split].
    + intros Hno. by destruct (Hno j).
    + intros _. by exists j.
    + exact Hmin.
  - split; [done|]. split.
    + intros (j & Hc). by destruct (H j).
    + intros j Hc. by destruct (H j).
Qed.

Lemma distance_is_minimum_witness :
  distanceToNearestHit [1; 0; 0; 1; 0; 0; 1; 0] 0 0 4 true ≤ 3.
Proof.
  apply (proj2 (proj2 (distance_is_minimum [1; 0; 0; 1; 0; 0; 1; 0] 0 0 4 true))
               3%nat).
  repeat split; [lia|simpl; lia|discriminate].
Defined.

(** ** The centre order of the superseded placement *)

(** X9.  [centerOrder start len] lists every index of
    [start .. start+len-1] exactly once, and begins with an index closest
    to the centre of the range, the lower one on a tie. *)
Theorem center_order_covers_range (start len : nat) :
  Legacy.centerOrder start len ≡ₚ seq start len
  ∧ NoDup (Legacy.centerOrder start len)
  ∧ ∀ first rest j,
      Legacy.centerOrder start len = first :: rest →
      (start ≤ j < start + len)%nat →
      let center := (inject_Z (Z.of_nat start)
                     + (inject_Z (Z.of_nat len) - 1) / 2)%Q in
      let dist i := Qabs (inject_Z (Z.of_nat i) - center) in
      (dist first < dist j)%Q ∨ ((dist first == dist j)%Q ∧ (first ≤ j)%nat).
Proof.
  split; [apply LegacyFacts.centerOrder_perm|].
  split; [apply LegacyFacts.centerOrder_NoDup|].
  intros first rest j E Hj center dist.
  unfold Legacy.centerOrder in E. rewrite LegacyFacts.foldl_snoc_map in E.
  cbn [app] in E. fold center in E.
  set (f := λ i, Legacy.mkCentered (start + i)
                   (Qabs (inject_Z (Z.of_nat (start + i)) - center))) in E.
  set (cmp := λ a b : Legacy.Centered,
                match (Legacy.d a ?= Legacy.d b)%Q with
                | Lt => -1
                | Gt => 1
                | Eq => Z.of_nat (Legacy.idx a) - Z.of_nat (Legacy.idx b)
                end) in E.
  destruct (js_sort cmp _) as [|r0 rs] eqn:Es; [done|].
  injection E as E0 _.
  assert (Hr0 : r0 ∈ map f (indices len))
    by (rewrite <- (js_sort_perm cmp), Es; left).
  apply list_elem_of_fmap in Hr0 as (i0 & -> & _). cbn [Legacy.idx f] in E0.
  assert (Hin : f (j - start)%nat ∈ map f (indices len)).
  { apply list_elem_of_fmap_2, elem_of_seq. lia. }
  eapply (js_sort_head cmp) in Hin; [| | |exact Es].
  - subst first. destruct Hin as [Heq|Hle].
    + right. apply (f_equal Legacy.idx) in Heq. cbn in Heq.
      replace j with (start + i0)%nat by lia. split; [reflexivity|lia].
    + unfold cmp, f in Hle. cbn [Legacy.idx Legacy.d] in Hle.
      replace (start + (j - start))%nat with j in Hle by lia.
      unfold dist.
      destruct (Qcompare_spec
                  (Qabs (inject_Z (Z.of_nat (start + i0)) - center))
                  (Qabs (inject_Z (Z.of_nat j) - center))) as [H|H|H].
      * right. split; [done|lia].
      * by left.
      * lia.
  - intros a b. unfold cmp. cbn beta.
    destruct (Qcompare_spec (Legacy.d a) (Legacy.d b)) as [H1|H1|H1];
      destruct (Qcompare_spec (Legacy.d b) (Legacy.d a)) as [H2|H2|H2];
      try lia; exfalso; lra.
  - intros a b c. unfold cmp. cbn beta.
    destruct (Qcompare_spec (Legacy.d a) (Legacy.d b)) as [H1|H1|H1];
      destruct (Qcompare_spec (Legacy.d b) (Legacy.d c)) as [H2|H2|H2];
      destruct (Qcompare_spec (Legacy.d a) (Legacy.d c)) as [H3|H3|H3];
      try lia; exfalso; lra.
Qed.

Lemma center_order_covers_range_witness :
  let center := (inject_Z 4 + (inject_Z 5 - 1) / 2)%Q in
  let dist i := Qabs (inject_Z (Z.of_nat i) - center) in
  (dist 6%nat < dist 8%nat)%Q ∨ ((dist 6%nat == dist 8%nat)%Q ∧ (6 ≤ 8)%nat).
Proof.
  apply (proj2 (proj2 (center_order_covers_range 4 5)) 6%nat
               [5; 7; 4; 8]%nat 8%nat); [reflexivity|lia].
Defined.

End GeneratorExtras.

(** * Further properties of cycle alignment and of the hook *)

Module SchedulerExtras.
Import Audio AudioFacts Transport.

(** ** [gcd], [lcm] and the cycle length on all inputs *)

Lemma gcd_all (a b : Z) :
  gcd a b = if (a =? 0) && (b =? 0) then 1 else Z.gcd a b.
Proof.
  unfold gcd. rewrite gcd_loop_gcd by lia.
  rewrite Z.gcd_abs_l, Z.gcd_abs_r.
  destruct (Z.eqb_spec (Z.gcd a b) 0) as [E|E].
  - apply Z.gcd_eq_0 in E as [-> ->]. done.
  - destruct (Z.eqb_spec a 0) as [->|]; [|done].
    destruct (Z.eqb_spec b 0) as [->|]; [|done]. by rewrite Z.gcd_0_l in E.
Qed.

(** X10.  [gcd] never returns 0: it is the greatest common divisor, and
    1 for two zeros; so [lcm] never divides by zero and is the least common
    multiple for all integers, zero and negative ones included. *)
Theorem gcd_lcm_are_mathematical (a b : Z) :
  gcd a b = (if (a =? 0) && (b =? 0) then 1 else Z.gcd a b)
  ∧ 0 < gcd a b
  ∧ lcm a b = Z.lcm a b.
Proof.
  split; [apply gcd_all|].
  assert (Hpos : 0 < gcd a b).
  { rewrite gcd_all. destruct ((a =? 0) && (b =? 0)) eqn:C; [lia|].
    pose proof (Z.gcd_nonneg a b).
    destruct (Z.eq_dec (Z.gcd a b) 0) as [E|E]; [|lia].
    apply Z.gcd_eq_0 in E as [-> ->]. done. }
  split; [done|].
  unfold lcm. rewrite gcd_all in *.
  destruct ((a =? 0) && (b =? 0)) eqn:C.
  - apply andb_true_iff in C as [Ha Hb].
    apply Z.eqb_eq in Ha, Hb. subst. reflexivity.
  - unfold Z.lcm.
    destruct (Z.gcd_divide_r a b) as [k Hk].
    set (g := Z.gcd a b) in *. clearbody g. clear C. subst b.
    rewrite Z.div_mul by lia.
    replace (a * (k * g)) with (a * k * g) by ring.
    rewrite Z.abs_mul, (Z.abs_eq g) by lia.
    by rewrite Z.div_mul by lia.
Qed.

Lemma timeSignatureToSteps_pos (ts : string) : 1 ≤ timeSignatureToSteps ts.
Proof.
  unfold timeSignatureToSteps.
  destruct (parseTimeSignature ts) as [[n d]|]; lia.
Qed.

(** X11.  Whatever the tracks and the time signature, the cycle length
    is at least 1, a multiple of the step count of every track that has a
    positive one (tracks with zero or negative steps are left out), and a
    multiple of the implied steps of the signature. *)
Theorem cycle_length_positive_common_multiple
    (tracks : list Track) (timeSignature : string) :
  let cycle := calculateCycleLength tracks timeSignature in
  1 ≤ cycle
  ∧ (timeSignatureToSteps timeSignature | cycle)
  ∧ ∀ tr, tr ∈ tracks → 0 < steps tr → (steps tr | cycle).
Proof.
  intros cycle. subst cycle. unfold calculateCycleLength.
  pose proof (timeSignatureToSteps_pos timeSignature) as Hsig.
  set (sig := timeSignatureToSteps timeSignature) in *.
  set (pos := List.filter (λ steps, 0 <? steps) (map steps tracks)).
  assert (Hpos : Forall (λ x, 0 < x) (pos ++ [sig])).
  { apply Forall_app. split; [|repeat constructor; lia].
    apply Forall_forall. intros x Hx.
    apply list_elem_of_In, List.filter_In in Hx as [_ Hx]. by apply Z.ltb_lt. }
  rewrite filter_all.
  2:{ eapply Forall_impl; [exact Hpos|]. intros x Hx. cbn beta in *.
      apply negb_true_iff, Z.eqb_neq. lia. }
  assert (Hmem : ∀ tr, tr ∈ tracks → 0 < steps tr → steps tr ∈ pos ++ [sig]).
  { intros tr Htr Hs. apply elem_of_app. left.
    apply list_elem_of_In, List.filter_In. split.
    - apply list_elem_of_In. by apply list_elem_of_fmap_2.
    - by apply Z.ltb_lt. }
  assert (Hsigin : sig ∈ pos ++ [sig]) by (apply elem_of_app; right; left).
  destruct (pos ++ [sig]) as [|first rest] eqn:E.
  { by apply elem_of_nil in Hsigin. }
  apply Forall_cons in Hpos as [Hf Hr].
  destruct (foldl_lcm_spec rest first Hf Hr) as (H1 & H2 & H3 & _).
  assert (Hdiv : ∀ x, x ∈ first :: rest → (x | foldl lcm first rest)).
  { intros x Hx. apply elem_of_cons in Hx as [->|Hx]; [done|].
    rewrite Forall_forall in H3. by apply H3. }
  split; [lia|]. split; [by apply Hdiv|].
  intros tr Htr Hs. by apply Hdiv, Hmem.
Qed.

Lemma cycle_length_positive_common_multiple_witness :
  (8 | calculateCycleLength
         [trackOfSteps 0; trackOfSteps 8; trackOfSteps (-3)] "x/4").
Proof.
  apply (proj2 (proj2 (cycle_length_positive_common_multiple
                         [trackOfSteps 0; trackOfSteps 8; trackOfSteps (-3)]
                         "x/4")) (trackOfSteps 8)).
  - right. left.
  - simpl. lia.
Defined.

Lemma cycle_length_char (tracks : list Track) (timeSignature : string) :
  let cycle := calculateCycleLength tracks timeSignature in
  let lengths := List.filter (λ steps, 0 <? steps) (map steps tracks)
                 ++ [timeSignatureToSteps timeSignature] in
  0 < cycle
  ∧ (∀ x, x ∈ lengths → (x | cycle))
  ∧ ∀ m, (∀ x, x ∈ lengths → (x | m)) → (cycle | m).
Proof.
  intros cycle lengths. subst cycle. unfold calculateCycleLength.
  pose proof (timeSignatureToSteps_pos timeSignature) as Hsig.
  fold lengths.
  assert (Hpos : Forall (λ x, 0 < x) lengths).
  { apply Forall_app. split; [|repeat constructor; lia].
    apply Forall_forall. intros x Hx.
    apply list_elem_of_In, List.filter_In in Hx as [_ Hx]. by apply Z.ltb_lt. }
  rewrite filter_all.
  2:{ eapply Forall_impl; [exact Hpos|]. intros x Hx. cbn beta in *.
      apply negb_true_iff, Z.eqb_neq. lia. }
  assert (Hne : lengths ≠ []) by (unfold lengths; by destruct (List.filter _ _)).
  destruct lengths as [|first rest]; [done|].
  apply Forall_cons in Hpos as [Hf Hr].
  destruct (foldl_lcm_spec rest first Hf Hr) as (H1 & H2 & H3 & H4).
  split; [done|]. split.
  - intros x Hx. apply elem_of_cons in Hx as [->|Hx]; [done|].
    rewrite Forall_forall in H3. by apply H3.
  - intros m Hm. apply H4; [apply Hm; left|].
    apply Forall_forall. intros x Hx. apply Hm. by right.
Qed.

(** X23.  The cycle length depends only on which step counts occur among
    the tracks, not on their order nor on how often each occurs. *)
Theorem cycle_length_ignores_order (tracks tracks' : list Track)
    (timeSignature : string) :
  (∀ n, n ∈ map steps tracks ↔ n ∈ map steps tracks') →
  calculateCycleLength tracks timeSignature
  = calculateCycleLength tracks' timeSignature.
Proof.
  intros Hsame.
  destruct (cycle_length_char tracks timeSignature) as (P1 & D1 & L1).
  destruct (cycle_length_char tracks' timeSignature) as (P2 & D2 & L2).
  assert (Hmem : ∀ x,
            x ∈ List.filter (λ steps, 0 <? steps) (map steps tracks)
                ++ [timeSignatureToSteps timeSignature]
            ↔ x ∈ List.filter (λ steps, 0 <? steps) (map steps tracks')
                  ++ [timeSignatureToSteps timeSignature]).
  { intros x. rewrite !elem_of_app, !list_elem_of_In, !List.filter_In,
      <- !list_elem_of_In, Hsame. done. }
  apply Z.divide_antisym_nonneg; [lia|lia| |].
  - apply L1. intros x Hx. apply D2. by apply Hmem.
  - apply L2. intros x Hx. apply D1. by apply Hmem.
Qed.

Lemma cycle_length_ignores_order_witness :
  calculateCycleLength [trackOfSteps 16; trackOfSteps 6] "3/4"
  = calculateCycleLength [trackOfSteps 6; trackOfSteps 16; trackOfSteps 6]
                         "3/4".
Proof.
  apply cycle_length_ignores_order. intros n. cbn.
  rewrite !elem_of_cons. pose proof (elem_of_nil n). tauto.
Defined.

(** ** Pieces of the time signature *)

Lemma append_empty (s : string) : (s ++ "")%string = s.
Proof.
  induction s as [|c s IH]; [done|].
  change (String c s ++ "")%string with (String c (s ++ "")). by rewrite IH.
Qed.

Lemma append_snoc (piece : string) (c : ascii) (s : string) :
  ((piece ++ String c "") ++ s)%string = (piece ++ String c s)%string.
Proof.
  induction piece as [|p piece IH]; [done|].
  change (String p ((piece ++ String c "") ++ s) = String p (piece ++ String c s))%string.
  by rewrite IH.
Qed.

Lemma splitSlash_no_slash (s piece : string) :
  (∀ c, In c (list_ascii_of_string s) → c ≠ "/"%char) →
  splitSlash s piece = [(piece ++ s)%string].
Proof.
  revert piece; induction s as [|c s IH]; intros piece H; cbn [splitSlash].
  - by rewrite append_empty.
  - destruct (Ascii.eqb_spec c "/") as [->|Hc].
    + exfalso. by apply (H "/"%char); [left|].
    + rewrite IH by (intros c' Hc'; apply H; by right).
      by rewrite append_snoc.
Qed.

Lemma splitSlash_slash (a rest piece : string) :
  (∀ c, In c (list_ascii_of_string a) → c ≠ "/"%char) →
  splitSlash (a ++ String "/" rest) piece
  = (piece ++ a)%string :: splitSlash rest EmptyString.
Proof.
  revert piece; induction a as [|c a IH]; intros piece H.
  - change (splitSlash ("" ++ String "/" rest) piece)%string
      with ((piece :: splitSlash rest EmptyString)).
    by rewrite append_empty.
  - change (splitSlash (String c a ++ String "/" rest) piece)%string
      with (if Ascii.eqb c "/" then piece :: splitSlash (a ++ String "/" rest) EmptyString
            else splitSlash (a ++ String "/" rest) (piece ++ String c EmptyString))%string.
    destruct (Ascii.eqb_spec c "/") as [->|Hc].
    + exfalso. by apply (H "/"%char); [left|].
    + rewrite IH by (intros c' Hc'; apply H; by right).
      by rewrite append_snoc.
Qed.

(** X24.  Only the first two pieces of the time signature count: a
    string without a slash has no denominator and falls back to 16 steps,
    and whatever follows a second slash is ignored. *)
Theorem signature_pieces (a b c : string) :
  (∀ x, In x (list_ascii_of_string a) → x ≠ "/"%char) →
  (∀ x, In x (list_ascii_of_string b) → x ≠ "/"%char) →
  parseTimeSignature a = None
  ∧ timeSignatureToSteps a = 16
  ∧ parseTimeSignature (a ++ String "/" (b ++ String "/" c))
    = parseTimeSignature (a ++ String "/" b).
Proof.
  intros Ha Hb.
  assert (E : parseTimeSignature a = None).
  { unfold parseTimeSignature. rewrite (splitSlash_no_slash a) by done.
    by destruct (parseInt ([_] !! 0%nat)). }
  split; [done|]. split.
  - unfold timeSignatureToSteps. by rewrite E.
  - unfold parseTimeSignature.
    rewrite !(splitSlash_slash a) by done.
    rewrite (splitSlash_slash b) by done.
    by rewrite (splitSlash_no_slash b) by done.
Qed.

Lemma signature_pieces_witness :
  parseTimeSignature "7" = None
  ∧ timeSignatureToSteps "7" = 16
  ∧ parseTimeSignature "7/8/16" = parseTimeSignature "7/8".
Proof.
  apply (signature_pieces "7" "8" "16");
    intros x Hx; cbn in Hx; destruct Hx as [<-|[]]; discriminate.
Defined.

(** ** The step interval *)

Lemma clamp_bounds (lo hi x : Q) :
  (lo <= hi)%Q → (lo <= Qmax lo (Qmin hi x) <= hi)%Q.
Proof.
  intros H. split; [apply Q.le_max_l|].
  apply Q.max_lub; [exact H|apply Q.le_min_l].
Qed.

Lemma inv_bounds (b : Q) :
  (40 <= b <= 300)%Q → ((1 # 300) <= / b <= (1 # 40))%Q.
Proof.
  intros Hb.
  assert (Hne : ¬ (b == 0)%Q) by lra.
  pose proof (Qmult_inv_r b Hne) as Hi.
  assert (Hpos : (0 < / b)%Q) by (apply Qinv_lt_0_compat; lra).
  split; nra.
Qed.

Lemma base_bounds (transport : TransportState) :
  ((1 # 20) <= 60 / Qmax 40 (Qmin 300 (bpm transport)) / 4 <= (3 # 8))%Q.
Proof.
  pose proof (clamp_bounds 40 300 (bpm transport) ltac:(lra)) as Hb.
  pose proof (inv_bounds _ Hb) as Hi.
  unfold Qdiv. change (/ 4)%Q with (1 # 4).
  set (x := (/ Qmax 40 (Qmin 300 (bpm transport)))%Q) in *. clearbody x. lra.
Qed.

Lemma interval_bounds (transport : TransportState) (c : Z) :
  ((7 # 200) <= stepInterval transport c <= (39 # 80))%Q.
Proof.
  unfold stepInterval.
  pose proof (base_bounds transport) as Hbase.
  pose proof (clamp_bounds 0 (3 # 10) (swing transport / 100 * (3 # 10))
                ltac:(lra)) as Hs.
  set (base := (60 / Qmax 40 (Qmin 300 (bpm transport)) / 4)%Q) in *.
  set (sw := Qmax 0 (Qmin (3 # 10) (swing transport / 100 * (3 # 10)))) in *.
  clearbody base sw.
  destruct (Z.rem c 2 =? 0).
  - assert ((0 <= ((3 # 8) - base) * ((13 # 10) - (1 + sw)))%Q)
      by (apply Qmult_le_0_compat; lra).
    assert ((0 <= base * sw)%Q) by (apply Qmult_le_0_compat; lra).
    split; nra.
  - assert ((0 <= (base - (1 # 20)) * ((1 - sw) - (7 # 10)))%Q)
      by (apply Qmult_le_0_compat; lra).
    assert ((0 <= base * sw)%Q) by (apply Qmult_le_0_compat; lra).
    split; nra.
Qed.

Lemma nextStep_advances (transport : TransportState) (refs : Refs) :
  (nextTimeRef refs + (7 # 200)
   <= nextTimeRef (nextStep transport refs))%Q.
Proof.
  unfold nextStep. cbn [nextTimeRef].
  pose proof (interval_bounds transport (currentStepRef refs)). lra.
Qed.

(** X12.  Whatever bpm and swing the transport holds, the step interval
    lies between 35 ms and 487.5 ms; in particular it is positive, so
    [nextTimeRef] strictly grows with every step. *)
Theorem step_interval_bounds (transport : TransportState) (refs : Refs) :
  ((7 # 200) <= stepInterval transport (currentStepRef refs) <= (39 # 80))%Q
  ∧ (nextTimeRef refs < nextTimeRef (nextStep transport refs))%Q.
Proof.
  split; [apply interval_bounds|].
  pose proof (nextStep_advances transport refs). lra.
Qed.

(** X13.  Swing keeps the tempo: the intervals after two consecutive
    step indices add up to two unswung sixteenths. *)
Theorem swing_keeps_pair_duration (transport : TransportState) (c : Z) :
  (stepInterval transport c + stepInterval transport (c + 1)
   == 2 * (60 / Qmax 40 (Qmin 300 (bpm transport)) / 4))%Q.
Proof.
  unfold stepInterval. rewrite !rem2_even.
  rewrite Z.even_add. change (Z.even 1) with false.
  destruct (Z.even c); cbn [Bool.eqb]; ring.
Qed.

(** ** The step index *)

(** X14.  Every state of the refs the hook can reach (by re-alignment,
    start, stop and steps, from the initial refs) has a cycle length of at
    least 1 and a step index inside the cycle. *)
Theorem step_index_stays_in_cycle (refs : Refs) :
  Reachable refs →
  1 ≤ cycleLengthRef refs ∧ 0 ≤ currentStepRef refs < cycleLengthRef refs.
Proof.
  assert (R : ∀ c n, 0 ≤ c → 1 ≤ n → 0 ≤ Z.rem c n < n).
  { intros c n Hc Hn. rewrite Z.rem_mod_nonneg by lia.
    apply Z.mod_pos_bound. lia. }
  induction 1 as [|refs refs' _ [Hc Hi] Hstep]; [cbn; lia|].
  destruct Hstep as [cycleLength refs|now refs|refs|transport refs]; cbn.
  - split; [lia|]. apply R; lia.
  - split; [done|]. rewrite Z.max_r by lia. apply R; lia.
  - lia.
  - split; [done|]. rewrite Z.max_r by lia. apply R; lia.
Qed.

Lemma step_index_stays_in_cycle_witness :
  let refs := nextStep (mkTransport 120 100 "4/4")
                       (alignCycle 3 (stopRefs initialRefs)) in
  1 ≤ cycleLengthRef refs ∧ 0 ≤ currentStepRef refs < cycleLengthRef refs.
Proof.
  apply step_index_stays_in_cycle.
  eapply reach_step; [|apply step_next].
  eapply reach_step; [|apply step_align].
  eapply reach_step; [|apply step_stop].
  apply reach_init.
Defined.

(** X15.  When the cycle length is the one computed from the tracks,
    each step of the scheduler moves the position inside every track's
    pattern one step forward, cyclically, also when the cycle wraps. *)
Theorem pattern_position_advances (tracks : list Track) (timeSignature : string)
    (transport : TransportState) (refs : Refs) (tr : Track) :
  tr ∈ tracks → 0 < steps tr → 0 ≤ currentStepRef refs →
  cycleLengthRef refs = calculateCycleLength tracks timeSignature →
  js_rem (currentStepRef (nextStep transport refs)) (steps tr)
  = Some ((Z.rem (currentStepRef refs) (steps tr) + 1) mod steps tr).
Proof.
  intros Htr Hs Hc Hcycle.
  destruct (cycle_length_char tracks timeSignature) as (Hpos & Hdiv & _).
  specialize (Hdiv (steps tr)). rewrite <- Hcycle in Hpos, Hdiv.
  assert (Hd : (steps tr | cycleLengthRef refs)).
  { apply Hdiv, elem_of_app. left. apply list_elem_of_In, List.filter_In.
    split; [apply list_elem_of_In; by apply list_elem_of_fmap_2|].
    by apply Z.ltb_lt. }
  clear Hdiv.
  unfold js_rem, nextStep. cbn [currentStepRef].
  destruct (Z.eqb_spec (steps tr) 0); [lia|]. f_equal.
  rewrite Z.max_r by lia.
  rewrite (Z.rem_mod_nonneg (currentStepRef refs + 1)) by lia.
  rewrite (Z.rem_mod_nonneg (currentStepRef refs)) by lia.
  pose proof (Z.mod_pos_bound (currentStepRef refs + 1) (cycleLengthRef refs)
                ltac:(lia)).
  rewrite Z.rem_mod_nonneg by lia.
  rewrite Z.mod_mod_divide by done.
  by rewrite Zplus_mod_idemp_l.
Qed.

Lemma pattern_position_advances_witness :
  js_rem (currentStepRef (nextStep (mkTransport 120 0 "3/4")
                                   (mkRefs 47 0 48))) 8
  = Some ((Z.rem 47 8 + 1) mod 8).
Proof.
  apply (pattern_position_advances [trackOfSteps 16; trackOfSteps 8] "3/4"
           (mkTransport 120 0 "3/4") (mkRefs 47 0 48) (trackOfSteps 8)).
  - right. left.
  - simpl. lia.
  - simpl. lia.
  - reflexivity.
Defined.

(** ** The lookahead loop *)

Lemma fuel_decreases (horizon : Q) (transport : TransportState) (refs : Refs) :
  (nextTimeRef refs < horizon + ahead)%Q →
  (fuelFor horizon (nextStep transport refs) < fuelFor horizon refs)%nat.
Proof.
  intros Hlt. unfold fuelFor.
  pose proof (interval_bounds transport (currentStepRef refs)) as [Hlo _].
  unfold nextStep. cbn [nextTimeRef].
  set (iv := stepInterval transport (currentStepRef refs)) in *. clearbody iv.
  set (x := ((horizon + ahead - nextTimeRef refs) * (200 # 7))%Q).
  set (y := ((horizon + ahead - (nextTimeRef refs + iv)) * (200 # 7))%Q).
  assert (Hx : (0 < x)%Q) by (unfold x; lra).
  assert (Hy : (y <= x - 1)%Q) by (unfold x, y; lra).
  pose proof (Qle_ceiling x) as Cx. pose proof (Qceiling_lt y) as Cy.
  replace (Qceiling y - 1) with (Qceiling y + -1) in Cy by lia.
  rewrite inject_Z_plus in Cy. change (inject_Z (-1)) with (-1 # 1)%Q in Cy.
  assert (A : (inject_Z 0 < inject_Z (Qceiling x))%Q)
    by (change (inject_Z 0) with 0%Q; lra).
  assert (B : (inject_Z (Qceiling y) < inject_Z (Qceiling x))%Q) by lra.
  rewrite <- Zlt_Qlt in A, B. lia.
Qed.

(** X16.  If no reading of the clock during a tick exceeds [horizon], the
    [while] loop of the lookahead tick ends: with the fuel [fuelFor] or
    more it returns, having only appended calls to the sink, and on return
    [nextTimeRef] is at least [ahead] past the clock reading of its last
    test. *)
Theorem lookahead_loop_catches_up (clock : nat → Q) (horizon : Q)
    (ready : bool) (tracks : list Track) (transport : TransportState)
    (fuel reads : nat) (refs : Refs) (sink : list Trigger) :
  (∀ k, (clock k <= horizon)%Q) → (fuelFor horizon refs ≤ fuel)%nat →
  ∃ refs' calls r,
    catchUp fuel ready tracks transport clock reads refs sink
    = Some (refs', sink ++ calls, S r)
    ∧ (clock r + ahead <= nextTimeRef refs')%Q
    ∧ (nextTimeRef refs <= nextTimeRef refs')%Q.
Proof.
  intros Hclock. revert reads refs sink.
  induction fuel as [|fuel IH]; intros reads refs sink Hfuel.
  { unfold fuelFor in Hfuel. lia. }
  cbn [catchUp].
  destruct (Qlt_le_dec (nextTimeRef refs) (clock reads + ahead)) as [Hlt|Hge].
  - assert (Hh : (nextTimeRef refs < horizon + ahead)%Q).
    { pose proof (Hclock reads). lra. }
    pose proof (fuel_decreases horizon transport refs Hh) as Hd.
    destruct (IH (S (S reads)) (nextStep transport refs)
                 (sink ++ schedule ready tracks (currentStepRef refs)
                                   (nextTimeRef refs) (clock (S reads))))
      as (refs' & calls & r & E & H1 & H2); [lia|].
    exists refs',
      (schedule ready tracks (currentStepRef refs) (nextTimeRef refs)
                (clock (S reads)) ++ calls), r.
    rewrite E, app_assoc. split; [done|]. split; [done|].
    pose proof (nextStep_advances transport refs) as Hs. lra.
  - exists refs, [], reads. rewrite app_nil_r. split; [done|].
    split; [done|lra].
Qed.

Lemma lookahead_loop_catches_up_witness :
  ∃ refs' calls r,
    catchUp 4 true
            [mkTrack "kick" 4 80 false false [true; false; true; false]]
            (mkTransport 120 50 "4/4") (λ _, 1%Q) 0 (mkRefs 0 1 16) []
    = Some (refs', [] ++ calls, S r)
    ∧ ((λ _, 1%Q) r + ahead <= nextTimeRef refs')%Q
    ∧ (nextTimeRef (mkRefs 0 1 16) <= nextTimeRef refs')%Q.
Proof.
  apply (lookahead_loop_catches_up (λ _, 1%Q) 1).
  - intros _. lra.
  - vm_compute. lia.
Defined.

Lemma schedule_times (ready : bool) (tracks : list Track) (step : Z)
    (scheduledTime now : Q) :
  Forall (λ c, time c = Qmax scheduledTime (now + (1 # 1000)))
         (schedule ready tracks step scheduledTime now).
Proof.
  rewrite schedule_calls. destruct ready; [|constructor].
  apply Forall_fmap, Forall_forall. by intros tr _.
Qed.

Lemma sorted_app (l1 l2 : list Q) :
  StronglySorted Qle l1 → StronglySorted Qle l2 →
  (∀ x y, x ∈ l1 → y ∈ l2 → (x <= y)%Q) →
  StronglySorted Qle (l1 ++ l2).
Proof.
  induction 1 as [|x l1 Hs IH Hx]; intros H2 Hc; [done|]. cbn [app].
  constructor.
  - apply IH; [done|]. intros a b Ha Hb. apply Hc; [by right|done].
  - apply Forall_app. split; [done|].
    apply Forall_forall. intros y Hy. apply Hc; [left|done].
Qed.

Lemma catchUp_ordered (clock : nat → Q) (ready : bool) (tracks : list Track)
    (transport : TransportState) (fuel reads : nat) (refs : Refs)
    (sink : list Trigger) (refs' : Refs) (sink' : list Trigger) (r : nat) :
  (∀ i j, (i ≤ j)%nat → (clock i <= clock j)%Q) →
  catchUp fuel ready tracks transport clock reads refs sink
  = Some (refs', sink', r) →
  ∃ calls, sink' = sink ++ calls
    ∧ StronglySorted Qle (map time calls)
    ∧ Forall (λ c, (Qmax (nextTimeRef refs) (clock (S reads) + (1 # 1000))
                    <= time c)%Q) calls.
Proof.
  intros Hmono. revert reads refs sink.
  induction fuel as [|fuel IH]; intros reads refs sink E; [done|].
  cbn [catchUp] in E.
  destruct (Qlt_le_dec (nextTimeRef refs) (clock reads + ahead)) as [Hlt|Hge].
  2:{ injection E as <- <- <-. exists []. rewrite app_nil_r.
      repeat split; constructor. }
  apply IH in E as (calls & -> & Hs & Hb).
  set (t0 := Qmax (nextTimeRef refs) (clock (S reads) + (1 # 1000))) in *.
  set (calls0 := schedule ready tracks (currentStepRef refs)
                          (nextTimeRef refs) (clock (S reads))) in *.
  pose proof (schedule_times ready tracks (currentStepRef refs)
                (nextTimeRef refs) (clock (S reads))) as H0.
  fold calls0 t0 in H0.
  assert (Hle : (t0 <= Qmax (nextTimeRef (nextStep transport refs))
                            (clock (S (S (S reads))) + (1 # 1000)))%Q).
  { pose proof (nextStep_advances transport refs) as Hn.
    pose proof (Hmono (S reads) (S (S (S reads))) ltac:(lia)) as Hc.
    unfold t0. apply Q.max_lub.
    - eapply Qle_trans; [|apply Q.le_max_l]. lra.
    - eapply Qle_trans; [|apply Q.le_max_r]. lra. }
  exists (calls0 ++ calls). rewrite app_assoc. split; [done|].
  split.
  - rewrite map_app. apply sorted_app; [|done|].
    + clear -H0. induction H0 as [|c l Hc Hl IH]; [constructor|].
      cbn [map]. constructor; [done|].
      rewrite Hc. apply Forall_fmap. eapply Forall_impl; [exact Hl|].
      intros c' Hc'. cbn. rewrite Hc'. apply Qle_refl.
    + intros x y Hx Hy.
      apply list_elem_of_fmap in Hx as (c & -> & Hc).
      apply list_elem_of_fmap in Hy as (c' & -> & Hc').
      rewrite Forall_forall in H0, Hb.
      rewrite (H0 c Hc). eapply Qle_trans; [exact Hle|]. by apply Hb.
  - apply Forall_app. split.
    + eapply Forall_impl; [exact H0|]. intros c Hc. cbn beta in *.
      rewrite Hc. apply Qle_refl.
    + eapply Forall_impl; [exact Hb|]. intros c Hc. cbn in *.
      by eapply Qle_trans; [exact Hle|].
Qed.

(** X17.  With a clock that never runs backwards, the trigger times sent
    to the sink during one tick are in non-decreasing order, and each is
    strictly later than the first clock reading [schedule] made. *)
Theorem tick_trigger_times_ordered (clock : nat → Q) (ready : bool)
    (tracks : list Track) (transport : TransportState) (fuel reads : nat)
    (refs refs' : Refs) (calls : list Trigger) (r : nat) :
  (∀ i j, (i ≤ j)%nat → (clock i <= clock j)%Q) →
  catchUp fuel ready tracks transport clock reads refs []
  = Some (refs', calls, r) →
  StronglySorted Qle (map time calls)
  ∧ Forall (λ c, (clock (S reads) < time c)%Q) calls.
Proof.
  intros Hmono E.
  apply (catchUp_ordered clock) in E as (calls' & -> & Hs & Hb); [|done].
  cbn [app]. split; [done|].
  eapply Forall_impl; [exact Hb|]. intros c Hc. cbn in *.
  eapply Qlt_le_trans; [|exact Hc].
  eapply Qlt_le_trans; [|apply Q.le_max_r]. lra.
Qed.

Lemma tick_trigger_times_ordered_witness :
  let calls :=
    [mkTrigger "kick" (80 / 100) (Qmax 1 (1 + (1 # 1000)))] in
  StronglySorted Qle (map time calls)
  ∧ Forall (λ c, (1 < time c)%Q) calls.
Proof.
  apply (tick_trigger_times_ordered (λ _, 1%Q) true
           [mkTrack "kick" 4 80 false false [true; false; true; false]]
           (mkTransport 120 50 "4/4") 4 0 (mkRefs 0 1 16)
           (nextStep (mkTransport 120 50 "4/4") (mkRefs 0 1 16)) _ 3).
  - intros _ _ _. lra.
  - reflexivity.
Defined.

End SchedulerExtras.

(** * Properties of the drum machine *)

Module DrumFacts.
Import DrumSounds.

Lemma attackTimes_app (drum : string) (e1 e2 : list AudioEvent) :
  attackTimes drum (e1 ++ e2) = attackTimes drum e1 ++ attackTimes drum e2.
Proof. apply omap_app. Qed.

(** What the [switch] emits: attacks of [drumType] only, at strictly
    increasing times from [now] on, the last of which is recorded. *)
Lemma attacks_times (drumType : string) (now : Q) (lastTime : option Q)
    (hits : list AudioEvent) (recorded : option Q) :
  attacks drumType now lastTime = (hits, recorded) →
  (∀ d, d ≠ drumType → attackTimes d hits = [])
  ∧ Forall (λ e, (now <= eventTime e)%Q) hits
  ∧ StronglySorted Qlt (attackTimes drumType hits)
  ∧ Forall (λ t, (now <= t)%Q) (attackTimes drumType hits)
  ∧ match recorded with
    | Some r => Forall (λ t, (t <= r)%Q) (attackTimes drumType hits)
                ∧ (now <= r)%Q
    | None => hits = []
    end.
Proof.
  assert (Hne : ∀ d, d ≠ drumType → String.eqb drumType d = false).
  { intros d Hd. apply String.eqb_neq. congruence. }
  assert (One : ∀ note dur,
            attacks drumType now lastTime
            = ([TriggerAttackRelease drumType note dur now], Some now) →
            attacks drumType now lastTime = (hits, recorded) →
            (∀ d, d ≠ drumType → attackTimes d hits = [])
            ∧ Forall (λ e, (now <= eventTime e)%Q) hits
            ∧ StronglySorted Qlt (attackTimes drumType hits)
            ∧ Forall (λ t, (now <= t)%Q) (attackTimes drumType hits)
            ∧ match recorded with
              | Some r => Forall (λ t, (t <= r)%Q) (attackTimes drumType hits)
                          ∧ (now <= r)%Q
              | None => hits = []
              end).
  { intros note dur E1 E2. rewrite E1 in E2. injection E2 as <- <-.
    unfold attackTimes. cbn. rewrite String.eqb_refl.
    split; [intros d Hd; by rewrite (Hne d Hd)|].
    repeat split; repeat constructor; apply Qle_refl. }
  intros E. unfold attacks in *.
  destruct (String.eqb drumType "kick"); [by eapply One|].
  destruct (String.eqb drumType "snare"); [by eapply One|].
  destruct (String.eqb drumType "hihat"); [by eapply One|].
  destruct (String.eqb drumType "crash"); [by eapply One|].
  destruct (String.eqb drumType "perc"); [by eapply One|].
  destruct (String.eqb drumType "clap").
  2:{ injection E as <- <-. repeat split; constructor. }
  clear One. injection E as <- <-.
  set (second := match lastTime with
                 | Some l => Qmax (now + (1 # 100)) (l + (1 # 10000))
                 | None => (now + (1 # 100))%Q
                 end).
  set (third := Qmax (second + (1 # 100)) (second + (1 # 10000))).
  assert (H2 : (now + (1 # 100) <= second)%Q).
  { unfold second. destruct lastTime; [apply Q.le_max_l|apply Qle_refl]. }
  assert (H3 : (second + (1 # 100) <= third)%Q) by apply Q.le_max_l.
  unfold attackTimes. cbn. rewrite String.eqb_refl.
  split; [intros d Hd; by rewrite (Hne d Hd)|].
  repeat split; repeat constructor; cbn; lra.
Qed.

Lemma adjusted_spec (now : Q) (lastTime : option Q) :
  (now <= adjusted now lastTime)%Q
  ∧ match lastTime with
    | Some l => (l < adjusted now lastTime)%Q
    | None => True
    end.
Proof.
  unfold adjusted, notAfter. destruct lastTime as [l|]; [|split; [lra|done]].
  destruct (Qlt_le_dec l now); split; lra.
Qed.

Lemma sorted_lt_app (l1 l2 : list Q) :
  StronglySorted Qlt l1 → StronglySorted Qlt l2 →
  (∀ x y, x ∈ l1 → y ∈ l2 → (x < y)%Q) →
  StronglySorted Qlt (l1 ++ l2).
Proof.
  induction 1 as [|x l1 Hs IH Hx]; intros H2 Hc; [done|]. cbn [app].
  constructor.
  - apply IH; [done|]. intros a b Ha Hb. apply Hc; [by right|done].
  - apply Forall_app. split; [done|].
    apply Forall_forall. intros y Hy. apply Hc; [left|done].
Qed.

(** The shape of what [trigger] returns for a drum it knows. *)
Lemma trigger_known (m : DrumMachine) (drumType : string) (volume : Q)
    (time : option Q) (clockNow : Q) (player : Synth) (gain : Q) :
  players m !! drumType = Some player → gains m !! drumType = Some gain →
  let lastTime := lastTriggerTimes m !! drumType in
  let now := adjusted (default clockNow time) lastTime in
  let base := default gain (baseGains m !! drumType) in
  ∃ hits recorded,
    attacks drumType now lastTime = (hits, recorded)
    ∧ trigger m drumType volume time clockNow
      = (mkMachine (players m) (gains m) (baseGains m)
                   (match recorded with
                    | Some t => <[drumType := t]> (lastTriggerTimes m)
                    | None => lastTriggerTimes m
                    end) (masterGain m),
         [CancelScheduledValues drumType now;
          SetValueAtTime drumType (base * Qmin (Qmax volume 0) 1) now]
         ++ hits ++ [SetValueAtTime drumType base (now + (1 # 10))]).
Proof.
  intros Hp Hg lastTime now base. unfold trigger. rewrite Hp, Hg.
  fold lastTime now base.
  destruct (attacks drumType now lastTime) as [hits recorded] eqn:E.
  by exists hits, recorded.
Qed.

Lemma trigger_unknown (m : DrumMachine) (drumType : string) (volume : Q)
    (time : option Q) (clockNow : Q) :
  players m !! drumType = None ∨ gains m !! drumType = None →
  trigger m drumType volume time clockNow = (m, []).
Proof.
  intros H. unfold trigger.
  destruct (players m !! drumType), (gains m !! drumType);
    try done; by destruct H.
Qed.

(** X18.  A trigger for a drum the machine does not hold is a no-op: no
    event is sent and the machine is unchanged.  This is the case for
    every name but the six drums on a new machine, and for every name
    after [dispose]. *)
Theorem trigger_unknown_is_noop (m : DrumMachine) (drumType : string)
    (volume : Q) (time : option Q) (clockNow : Q) :
  (players m !! drumType = None ∨ gains m !! drumType = None →
     trigger m drumType volume time clockNow = (m, []))
  ∧ trigger (dispose m) drumType volume time clockNow = (dispose m, [])
  ∧ (drumType ∉ ["kick"; "snare"; "hihat"; "crash"; "perc"; "clap"]%string →
     trigger newDrumMachine drumType volume time clockNow
     = (newDrumMachine, [])).
Proof.
  split; [apply trigger_unknown|]. split.
  - apply trigger_unknown. left. apply lookup_empty.
  - intros Hd. apply trigger_unknown. left.
    apply not_elem_of_list_to_map_1. exact Hd.
Qed.

Lemma trigger_unknown_is_noop_witness :
  trigger newDrumMachine "cowbell" 1 None 0 = (newDrumMachine, []).
Proof.
  apply (proj2 (proj2 (trigger_unknown_is_noop newDrumMachine "cowbell"
                         1 None 0))).
  intros H. repeat (apply elem_of_cons in H as [H|H]; [discriminate H|]).
  by apply elem_of_nil in H.
Defined.

Lemma trigger_ordered (m : DrumMachine) (evs : list AudioEvent)
    (drumType : string) (volume : Q) (time : option Q) (clockNow : Q) :
  ordered m evs →
  ordered (trigger m drumType volume time clockNow).1
          (evs ++ (trigger m drumType volume time clockNow).2).
Proof.
  intros Hinv.
  destruct (players m !! drumType) as [player|] eqn:Hp.
  2:{ rewrite trigger_unknown by (by left). cbn. by rewrite app_nil_r. }
  destruct (gains m !! drumType) as [gain|] eqn:Hg.
  2:{ rewrite trigger_unknown by (by right). cbn. by rewrite app_nil_r. }
  destruct (trigger_known m drumType volume time clockNow player gain Hp Hg)
    as (hits & recorded & Ea & ->).
  cbn [fst snd].
  set (lastTime := lastTriggerTimes m !! drumType) in *.
  set (now := adjusted (default clockNow time) lastTime) in *.
  destruct (attacks_times _ _ _ _ _ Ea) as (Hother & _ & Hs & Hge & Hrec).
  destruct (adjusted_spec (default clockNow time) lastTime) as [_ Hadj].
  fold now in Hadj.
  assert (Hev : ∀ d, attackTimes d
                       ([CancelScheduledValues drumType now;
                         SetValueAtTime drumType
                           (default gain (baseGains m !! drumType)
                            * Qmin (Qmax volume 0) 1) now]
                        ++ hits
                        ++ [SetValueAtTime drumType
                              (default gain (baseGains m !! drumType))
                              (now + (1 # 10))])
                     = attackTimes d hits).
  { intros d. rewrite !attackTimes_app. cbn. by rewrite app_nil_r. }
  intros d. rewrite attackTimes_app, Hev.
  destruct (Hinv d) as [Hsd Hld].
  destruct (decide (d = drumType)) as [->|Hd].
  - destruct recorded as [r|]; cbn [lastTriggerTimes].
    2:{ subst hits. cbn. by rewrite app_nil_r. }
    destruct Hrec as [Hle Hnr]. fold lastTime in Hld. split.
    + apply sorted_lt_app; [done|done|].
      intros x y Hx Hy. rewrite Forall_forall in Hld, Hge.
      destruct (Hld x Hx) as (l & El & Hxl). rewrite El in Hadj.
      specialize (Hge y Hy). lra.
    + apply Forall_app. split.
      * eapply Forall_impl; [exact Hld|]. intros t (l & El & Htl).
        exists r. rewrite lookup_insert_eq. split; [done|].
        rewrite El in Hadj. lra.
      * eapply Forall_impl; [exact Hle|]. intros t Ht.
        exists r. by rewrite lookup_insert_eq.
  - rewrite (Hother d Hd), app_nil_r. split; [done|].
    destruct recorded as [r|]; cbn [lastTriggerTimes]; [|done].
    eapply Forall_impl; [exact Hld|]. intros t (l & El & Htl).
    exists l. by rewrite lookup_insert_ne.
Qed.

(** X19.  Whatever calls are made on a machine, with whatever requested
    times and clock readings, the attacks sent to the synth of each drum
    carry strictly increasing times. *)
Theorem attack_times_strictly_increase (m : DrumMachine) (calls : list Call)
    (drum : string) :
  StronglySorted Qlt (attackTimes drum (triggerAll m calls).2).
Proof.
  unfold triggerAll.
  enough (G : ∀ acc : DrumMachine * list AudioEvent,
            ordered acc.1 acc.2 →
            ordered
              (foldl (λ acc c,
                        let '(m', evs) :=
                          trigger acc.1 (callDrum c) (callVolume c)
                                  (callTime c) (callClock c) in
                        (m', acc.2 ++ evs)) acc calls).1
              (foldl (λ acc c,
                        let '(m', evs) :=
                          trigger acc.1 (callDrum c) (callVolume c)
                                  (callTime c) (callClock c) in
                        (m', acc.2 ++ evs)) acc calls).2).
  { apply (G (m, [])). intros d. cbn. split; constructor. }
  induction calls as [|c calls IH]; intros acc Hacc; [done|].
  cbn [foldl]. apply IH.
  pose proof (trigger_ordered acc.1 acc.2 (callDrum c) (callVolume c)
                (callTime c) (callClock c) Hacc) as H.
  by destruct (trigger acc.1 (callDrum c) (callVolume c) (callTime c)
                       (callClock c)).
Qed.

Lemma trigger_not_early (m : DrumMachine) (drumType : string) (volume : Q)
    (time : option Q) (clockNow : Q) :
  Forall (λ e, (default clockNow time <= eventTime e)%Q)
         (trigger m drumType volume time clockNow).2.
Proof.
  destruct (players m !! drumType) as [player|] eqn:Hp.
  2:{ rewrite trigger_unknown by (by left). constructor. }
  destruct (gains m !! drumType) as [gain|] eqn:Hg.
  2:{ rewrite trigger_unknown by (by right). constructor. }
  destruct (trigger_known m drumType volume time clockNow player gain Hp Hg)
    as (hits & recorded & Ea & ->).
  cbn [snd].
  destruct (attacks_times _ _ _ _ _ Ea) as (_ & Hhits & _).
  destruct (adjusted_spec (default clockNow time)
                          (lastTriggerTimes m !! drumType)) as [Hadj _].
  repeat (apply Forall_cons; split; [cbn; lra|]).
  apply Forall_app. split.
  - eapply Forall_impl; [exact Hhits|]. intros e He. cbn in *. lra.
  - repeat constructor. cbn. lra.
Qed.

(** X20.  End to end: every event the drum machine sends for a call
    that [schedule] passes to it lies strictly after the clock reading
    [schedule] made, whatever the state of the machine. *)
Theorem drum_events_after_clock (ready : bool) (tracks : list Audio.Track)
    (step : Z) (scheduledTime now clockNow : Q) (m : DrumMachine)
    (call : Audio.Trigger) (e : AudioEvent) :
  call ∈ Audio.schedule ready tracks step scheduledTime now →
  e ∈ (trigger m (Audio.trackId call) (Audio.velocity call)
               (Some (Audio.time call)) clockNow).2 →
  (now < eventTime e)%Q.
Proof.
  intros Hc He.
  pose proof (SchedulerExtras.schedule_times ready tracks step scheduledTime
                now) as Ht.
  rewrite Forall_forall in Ht. specialize (Ht call Hc).
  pose proof (trigger_not_early m (Audio.trackId call) (Audio.velocity call)
                (Some (Audio.time call)) clockNow) as Hn.
  rewrite Forall_forall in Hn. specialize (Hn e He). cbn in Hn.
  rewrite Ht in Hn.
  pose proof (Q.le_max_r scheduledTime (now + (1 # 1000))). lra.
Qed.

Lemma drum_events_after_clock_witness :
  (2 < eventTime (CancelScheduledValues "kick"
                    (adjusted (Qmax 1 (2 + (1 # 1000))) None)))%Q.
Proof.
  apply (drum_events_after_clock true
           [Audio.mkTrack "kick" 4 80 false false [true; false; false; false]]
           4 1 2 0 newDrumMachine
           (Audio.mkTrigger "kick" (80 / 100) (Qmax 1 (2 + (1 # 1000))))).
  - vm_compute. left.
  - left.
Defined.

Lemma clamp01 (v : Q) :
  (0 <= Qmin (Qmax v 0) 1 <= 1)%Q
  ∧ ((0 <= v <= 1)%Q → (Qmin (Qmax v 0) 1 == v)%Q).
Proof.
  split.
  - split; [|apply Q.le_min_r].
    apply Q.min_glb; [apply Q.le_max_r|lra].
  - intros Hv. rewrite Q.min_l; [apply Q.max_l; lra|].
    rewrite Q.max_l; lra.
Qed.

(** X21.  Volumes are clamped, never rejected: [setMasterVolume] stores a
    gain inside [0, 1], the given one when it already lies there, and
    the gain [trigger] sets on a drum lies between 0 and the drum's base
    gain whatever volume it is called with. *)
Theorem volumes_are_clamped (m : DrumMachine) (volume : Q) :
  ((0 <= masterGain (setMasterVolume m volume) <= 1)%Q
   ∧ ((0 <= volume <= 1)%Q →
      (masterGain (setMasterVolume m volume) == volume)%Q))
  ∧ ∀ drumType time clockNow player gain d value t,
      players m !! drumType = Some player →
      gains m !! drumType = Some gain →
      (0 <= default gain (baseGains m !! drumType))%Q →
      SetValueAtTime d value t ∈ (trigger m drumType volume time clockNow).2 →
      (0 <= value <= default gain (baseGains m !! drumType))%Q.
Proof.
  split; [apply clamp01|].
  intros drumType time clockNow player gain d value t Hp Hg Hb He.
  destruct (trigger_known m drumType volume time clockNow player gain Hp Hg)
    as (hits & recorded & Ea & E).
  rewrite E in He. cbn [snd] in He.
  set (base := default gain (baseGains m !! drumType)) in *.
  destruct (clamp01 volume) as [[Hc0 Hc1] _].
  set (cv := Qmin (Qmax volume 0) 1) in *. clearbody cv base.
  apply elem_of_cons in He as [He|He]; [done|].
  apply elem_of_cons in He as [He|He].
  { injection He as _ -> _. split; [apply Qmult_le_0_compat; lra|nra]. }
  apply elem_of_app in He as [He|He].
  - exfalso. clear -Ea He. unfold attacks in Ea.
    repeat (destruct (String.eqb drumType _);
            [injection Ea as <- _;
             repeat (apply elem_of_cons in He as [He|He]; [done|]);
             by apply elem_of_nil in He|]).
    injection Ea as <- _. by apply elem_of_nil in He.
  - apply elem_of_cons in He as [He|He]; [|by apply elem_of_nil in He].
    injection He as _ -> _. lra.
Qed.

Lemma volumes_are_clamped_witness :
  (0 <= (9 # 10) * Qmin (Qmax 7 0) 1 <= 9 # 10)%Q.
Proof.
  apply (proj2 (volumes_are_clamped newDrumMachine 7) "kick"%string
               (Some 1%Q) 0%Q PolySynth (9 # 10) "kick"%string
               ((9 # 10) * Qmin (Qmax 7 0) 1)%Q 1%Q).
  - reflexivity.
  - reflexivity.
  - vm_compute. discriminate.
  - right. left.
Defined.

(** X22.  A clap is three bursts 10 ms apart, starting at the time
    [trigger] uses, and the last burst is the one recorded: the guards
    against the previous trigger time never change the spacing. *)
Theorem clap_is_three_bursts (m : DrumMachine) (volume : Q)
    (time : option Q) (clockNow : Q) (player : Synth) (gain : Q) :
  players m !! "clap"%string = Some player →
  gains m !! "clap"%string = Some gain →
  let out := trigger m "clap" volume time clockNow in
  ∃ t1 t2 t3,
    attackTimes "clap" out.2 = [t1; t2; t3]
    ∧ t1 = adjusted (default clockNow time)
                    (lastTriggerTimes m !! "clap"%string)
    ∧ (t2 == t1 + (1 # 100))%Q ∧ (t3 == t1 + (2 # 100))%Q
    ∧ lastTriggerTimes out.1 !! "clap"%string = Some t3.
Proof.
  intros Hp Hg out. subst out.
  destruct (trigger_known m "clap" volume time clockNow player gain Hp Hg)
    as (hits & recorded & Ea & ->).
  destruct (adjusted_spec (default clockNow time)
                          (lastTriggerTimes m !! "clap"%string)) as [_ Hadj].
  set (lastTime := lastTriggerTimes m !! "clap"%string) in *.
  set (now := adjusted (default clockNow time) lastTime) in *.
  cbn in Ea. injection Ea as <- <-.
  set (second := match lastTime with
                 | Some l => Qmax (now + (1 # 100)) (l + (1 # 10000))
                 | None => (now + (1 # 100))%Q
                 end).
  set (third := Qmax (second + (1 # 100)) (second + (1 # 10000))).
  assert (H2 : (second == now + (1 # 100))%Q).
  { unfold second. destruct lastTime as [l|]; [|reflexivity].
    apply Q.max_l. lra. }
  assert (H3 : (third == second + (1 # 100))%Q)
    by (unfold third; apply Q.max_l; lra).
  exists now, second, third. cbn [fst snd lastTriggerTimes].
  split; [reflexivity|]. split; [done|]. split; [done|].
  split; [lra|]. apply lookup_insert_eq.
Qed.

Lemma clap_is_three_bursts_witness :
  ∃ t1 t2 t3,
    attackTimes "clap" (trigger newDrumMachine "clap" 1 (Some 1%Q) 0).2
    = [t1; t2; t3]
    ∧ t1 = adjusted 1 None
    ∧ (t2 == t1 + (1 # 100))%Q ∧ (t3 == t1 + (2 # 100))%Q
    ∧ lastTriggerTimes (trigger newDrumMachine "clap" 1 (Some 1%Q) 0).1
        !! "clap"%string = Some t3.
Proof.
  apply (clap_is_three_bursts newDrumMachine 1 (Some 1%Q) 0 NoiseSynth (6 # 10));
    reflexivity.
Defined.

End DrumFacts.
